(** * explosive.fuse: the archive namespace mapper

    A shallow embedding of [src/explosive/fuse/mapper.py] (class
    [DefaultMapper]) and the properties of its namespace tree.

    Python dictionaries are finite maps ([gmap string _]); the tree of nested
    dictionaries is the inductive type [Node].  The methods mutate the tree in
    place through references into it ([current], [target]); a reference to a
    directory is modelled by the list of keys leading to it from the root
    (a [Cursor]), which is faithful because the tree never shares a
    dictionary between two places: every directory is created fresh by
    [mkdir].  Methods are computations in a small monad [M] carrying the
    object state, raised exceptions and the records sent to the logger. *)

From stdpp Require Import gmap strings list fin_maps.

Local Open Scope string_scope.
Local Open Scope Z_scope.
Local Open Scope list_scope.

(* ================================================================= *)
(** ** Data model *)

(** A directory value is a [dict], a file value is the tuple
    [(archive_path, filename, file_size)]. *)
#[warnings="-register-all"]
Inductive Node : Type :=
  | File (archive_path : string) (entry_name : string) (size : Z)
  | Dir (entries : gmap string Node).

(** The two attributes of [zipfile.ZipInfo] the mapper reads. *)
Record ZipInfo : Type := zipinfo {
  filename : string;
  file_size : Z;
}.

Inductive Exn : Type :=
  | ValueError (msg : string)
  | BadZipFile
  | FileNotFoundError
  | OtherException (what : string).

Inductive Result (A : Type) : Type :=
  | Return (a : A)
  | Raise (e : Exn).
Arguments Return {A} a.
Arguments Raise {A} e.

Inductive Level : Type := INFO | WARNING | EXCEPTION.

Definition LogRecord : Type := Level * string.

(** The pathmaker turns an entry name into directory fragments and a file
    name; a falsy file name ([None] or the empty string) marks a directory
    entry. *)
Definition PathMaker : Type := string → list string * option string.

Record DefaultMapper : Type := mkMapper {
  include_arcname : bool;
  overwrite : bool;
  pathmaker : PathMaker;
  mapping : gmap string Node;
}.

Definition Cursor : Type := list string.

(* ================================================================= *)
(** ** Python string helpers *)

Definition slash : Ascii.ascii := Ascii.Ascii true true true true false true false false.

(** [s.split('/')]: never empty, [''.split('/') = ['']]. *)
Fixpoint split (s : string) : list string :=
  match s with
  | EmptyString => [EmptyString]
  | String c s' =>
      if Ascii.eqb c slash then EmptyString :: split s'
      else match split s' with
           | [] => [String c EmptyString]
           | w :: ws => String c w :: ws
           end
  end.

(** Whether a fragment contains the separator. *)
Fixpoint has_slash (s : string) : bool :=
  match s with
  | EmptyString => false
  | String c s' => Ascii.eqb c slash || has_slash s'
  end.

(** ['/'.join(l)] *)
Definition join (l : list string) : string := String.concat "/" l.

(** [os.path.basename]: what follows the last slash. *)
Definition basename (p : string) : string := List.last (split p) "".

(** Truth value of the file name returned by the pathmaker. *)
Definition truthy (name : option string) : bool :=
  match name with
  | None => false
  | Some s => negb (String.eqb s "")
  end.

(* ================================================================= *)
(** ** The store: dereferencing and updating through a cursor *)

(** The object a cursor leads to, starting from node [n]. *)
Fixpoint deref (n : Node) (cur : Cursor) : option Node :=
  match cur with
  | [] => Some n
  | key :: cur' =>
      match n with
      | Dir d => match d !! key with
                 | Some child => deref child cur'
                 | None => None
                 end
      | File _ _ _ => None
      end
  end.

(** [d[key] = v] performed on the dictionary the cursor leads to. *)
Fixpoint store (d : gmap string Node) (cur : Cursor) (key : string) (v : Node)
  : gmap string Node :=
  match cur with
  | [] => <[key := v]> d
  | k :: cur' =>
      match d !! k with
      | Some (Dir sub) => <[k := Dir (store sub cur' key v)]> d
      | _ => d
      end
  end.

Definition is_dict (o : option Node) : bool :=
  match o with
  | Some (Dir _) => true
  | _ => false
  end.

Definition has_key (o : option Node) (key : string) : bool :=
  match o with
  | Some (Dir d) => bool_decide (is_Some (d !! key))
  | _ => false
  end.

(* ================================================================= *)
(** ** The monad of methods *)

Definition M (A : Type) : Type :=
  DefaultMapper → Result A * DefaultMapper * list LogRecord.

Definition ret {A} (a : A) : M A := λ self, (Return a, self, []).

Definition bind {A B} (m : M A) (k : A → M B) : M B := λ self,
  match m self with
  | (Return a, self', l1) =>
      match k a self' with
      | (r, self'', l2) => (r, self'', l1 ++ l2)
      end
  | (Raise e, self', l1) => (Raise e, self', l1)
  end.

Definition raise {A} (e : Exn) : M A := λ self, (Raise e, self, []).

(** [try: body  except: handler] *)
Definition try_except {A} (body : M A) (handler : Exn → M A) : M A := λ self,
  match body self with
  | (Return a, self', l1) => (Return a, self', l1)
  | (Raise e, self', l1) =>
      match handler e self' with
      | (r, self'', l2) => (r, self'', l1 ++ l2)
      end
  end.

Definition get_self : M DefaultMapper := λ self, (Return self, self, []).

Definition logger (lvl : Level) (msg : string) : M unit :=
  λ self, (Return tt, self, [(lvl, msg)]).

Notation "x <- c1 ;; c2" := (bind c1 (λ x, c2))
  (at level 100, c1 at next level, right associativity).
Notation "c1 ;; c2" := (bind c1 (λ _, c2))
  (at level 100, right associativity).

(** The object behind a reference. *)
Definition read (cur : Cursor) : M (option Node) := λ self,
  (Return (deref (Dir (mapping self)) cur), self, []).

(** [key in current] *)
Definition contains (current : Cursor) (key : string) : M bool :=
  o <- read current ;; ret (has_key o key).

(** [isinstance(current, dict)] *)
Definition isinstance_dict (current : Cursor) : M bool :=
  o <- read current ;; ret (is_dict o).

(** The object with its tree replaced, the other attributes untouched. *)
Definition with_mapping (self : DefaultMapper) (m : gmap string Node)
  : DefaultMapper :=
  mkMapper (include_arcname self) (overwrite self) (pathmaker self) m.

(** [current[key] = v] *)
Definition setitem (current : Cursor) (key : string) (v : Node) : M unit :=
  λ self,
  (Return tt, with_mapping self (store (mapping self) current key v), []).

(* ================================================================= *)
(** ** [DefaultMapper.mkdir] *)

Definition mkdir_message (path_fragments : list string) (c : nat)
  (frag : string) : string :=
  "cannot create directory `" +:+ frag +:+ "` at `" +:+
  join (take c path_fragments) +:+ "/`: file entry exists.".

(** The loop [for c, frag in enumerate(path_fragments)], started at index
    [c] with the fragments [rest] still to visit. *)
Fixpoint mkdir_loop (path_fragments : list string) (c : nat)
  (rest : list string) (current : Cursor) : M Cursor :=
  match rest with
  | [] => ret current
  | frag :: rest' =>
      present <- contains current frag ;;
      if present : bool then
        let current := current ++ [frag] in
        isdir <- isinstance_dict current ;;
        if negb isdir then
          raise (ValueError (mkdir_message path_fragments c frag))
        else mkdir_loop path_fragments (S c) rest' current
      else
        setitem current frag (Dir ∅) ;;
        mkdir_loop path_fragments (S c) rest' (current ++ [frag])
  end.

Definition mkdir (path_fragments : list string) : M Cursor :=
  mkdir_loop path_fragments 0 path_fragments [].

(* ================================================================= *)
(** ** [DefaultMapper.traverse] and [DefaultMapper.readdir] *)

(** [path and path.split('/') or []] *)
Definition path_fragments_of (path : string) : list string :=
  match path with
  | EmptyString => []
  | _ => split path
  end.

(** The loop of [traverse]; [None] is the early [return None]. *)
Fixpoint traverse_loop (current : Node) (path_fragments : list string)
  : option Node :=
  match path_fragments with
  | [] => Some current
  | frag :: rest =>
      match current with
      | Dir d =>
          match d !! frag with
          | Some child => traverse_loop child rest
          | None => None
          end
      | File _ _ _ => None
      end
  end.

Definition traverse (path : string) : M (option Node) :=
  self <- get_self ;;
  ret (traverse_loop (Dir (mapping self)) (path_fragments_of path)).

(** [list(info.keys())]; the list is in the map's own order, the tests sort
    it before comparing. *)
Definition keys (d : gmap string Node) : list string := (map_to_list d).*1.

Definition readdir (path : string) : M (list string) :=
  info <- traverse path ;;
  match info with
  | Some (Dir d) => ret (keys d)
  | _ => ret []
  end.

(* ================================================================= *)
(** ** [DefaultMapper._load_infolist] and [DefaultMapper.load_archive] *)

(** The name handed to the pathmaker: [archive_name + info.filename] when
    [include_arcname] is set, [info.filename] otherwise. *)
Definition ifilename_of (self : DefaultMapper) (archive_path : string)
  (info : ZipInfo) : string :=
  let archive_name := basename archive_path +:+ "/" in
  if include_arcname self then archive_name +:+ filename info
  else filename info.

(** One iteration of the loop over [infolist]; [continue] ends it. *)
Definition load_entry (archive_path : string) (info : ZipInfo) : M unit :=
  self <- get_self ;;
  let ifilename := ifilename_of self archive_path info in
  let '(frags, name) := pathmaker self ifilename in
  made <- try_except
            (target <- mkdir frags ;; ret (Some target))
            (λ e, match e with
                  | ValueError msg =>
                      logger WARNING
                        ("`" +:+ filename info +:+
                         "` could not be created: " +:+ msg) ;;
                      ret None
                  | _ => raise e
                  end) ;;
  match made with
  | None => ret tt
  | Some target =>
      if negb (truthy name) then ret tt
      else
        let key := default "" name in
        present <- contains target key ;;
        self <- get_self ;;
        if present && negb (overwrite self) then
          logger INFO ("`" +:+ filename info +:+ "` already exists; ignoring")
        else
          setitem target key
            (File archive_path (filename info) (file_size info))
  end.

Fixpoint _load_infolist (archive_path : string) (infolist : list ZipInfo)
  : M unit :=
  match infolist with
  | [] => ret tt
  | info :: rest =>
      load_entry archive_path info ;; _load_infolist archive_path rest
  end.

(** [zipfile.ZipFile(archive_path)] followed by [infolist()]: what the file
    system holds at a path. *)
Definition ZipFiles : Type := string → Result (list ZipInfo).

Definition load_archive (ZipFile : ZipFiles) (archive_path : string)
  : M bool :=
  try_except
    (match ZipFile archive_path with
     | Return infolist =>
         _load_infolist archive_path infolist ;;
         logger INFO ("loaded `" +:+ archive_path +:+ "`") ;;
         ret true
     | Raise e => raise e
     end)
    (λ e, match e with
          | BadZipFile =>
              logger WARNING
                ("`" +:+ archive_path +:+
                 "` appears to be an invalid archive file") ;;
              ret false
          | FileNotFoundError =>
              logger WARNING ("`" +:+ archive_path +:+ "` does not exist.") ;;
              ret false
          | _ => logger EXCEPTION "Exception" ;; ret false
          end).

(** A sequence of [load_archive] calls. *)
Fixpoint load_archives (ZipFile : ZipFiles) (paths : list string)
  : M (list bool) :=
  match paths with
  | [] => ret []
  | p :: ps =>
      ok <- load_archive ZipFile p ;;
      oks <- load_archives ZipFile ps ;;
      ret (ok :: oks)
  end.

(** The object [__init__] builds, before any archive is loaded, from the
    pathmaker found at line 34 and the two options. *)
Definition new_mapper (pm : PathMaker) (overwrite include_arcname : bool)
  : DefaultMapper :=
  mkMapper include_arcname overwrite pm ∅.

(** [getattr(pathmaker, pathmaker_name)()] of line 34: what looking the
    name up in the module [explosive.fuse.pathmaker] and calling the
    attribute gives, a pathmaker or the exception raised
    ([AttributeError] for a name the module does not have).  The module is
    not among the sources, so it is a parameter. *)
Definition PathMakerModule : Type := string → Result PathMaker.

(** [DefaultMapper.__init__]: the object constructed, or the exception that
    leaves the constructor, with the records logged.  The lookup of line 34
    stands outside any [try]; [if path:] skips [None] and the empty
    string. *)
Definition __init__ (ZipFile : ZipFiles) (pathmaker_module : PathMakerModule)
  (path : option string) (pathmaker_name : string)
  (overwrite include_arcname : bool)
  : Result DefaultMapper * list LogRecord :=
  match pathmaker_module pathmaker_name with
  | Raise e => (Raise e, [])
  | Return pm =>
      let self := new_mapper pm overwrite include_arcname in
      match path with
      | Some p =>
          if negb (String.eqb p "") then
            match load_archive ZipFile p self with
            | (Return _, self', l) => (Return self', l)
            | (Raise e, _, l) => (Raise e, l)
            end
          else (Return self, [])
      | None => (Return self, [])
      end
  end.

(* ================================================================= *)
(** ** The default pathmaker *)

Definition ends_with_slash (name : string) : bool :=
  negb (String.eqb name "") && String.eqb (List.last (split name) "x") "".

(** Modelled from the spec: the module [explosive.fuse.pathmaker], which
    [mapper.py] imports, is not among the sources.  The default strategy
    splits on ['/']; when the name ends with ['/'] the trailing empty segment
    is discarded and the leaf is absent; otherwise the last segment is the
    leaf and the others are the directory fragments. *)
Definition default_pathmaker : PathMaker := λ name,
  let segments := split name in
  if ends_with_slash name then (removelast segments, None)
  else (removelast segments, Some (List.last segments "")).

(* ================================================================= *)
(** ** The archive registry and [unload] *)

(** [del d[key]] performed on the dictionary the cursor leads to. *)
Fixpoint erase (d : gmap string Node) (cur : Cursor) (key : string)
  : gmap string Node :=
  match cur with
  | [] => delete key d
  | k :: cur' =>
      match d !! k with
      | Some (Dir sub) => <[k := Dir (erase sub cur' key)]> d
      | _ => d
      end
  end.

(** Modelled from the spec: the engine state with the archive registry
    (archive identifier to the names it contributed) and the occupancy
    ledger (name to the archives that tried to claim it), neither of which
    [mapper.py] keeps. *)
Record Engine : Type := mkEngine {
  tree : DefaultMapper;
  registry : gmap string (list string);
  ledger : gmap string (list string);
}.

Inductive UnloadOutcome : Type := Unloaded | NotLoaded.

(** Modelled from the spec: removal of an archive identifier from a ledger
    sequence (one recorded attempt). *)
Fixpoint remove_first (archive_id : string) (seq : list string)
  : list string :=
  match seq with
  | [] => []
  | a :: seq' =>
      if String.eqb a archive_id then seq'
      else a :: remove_first archive_id seq'
  end.

(** Modelled from the spec: step (a) of unload, which is absent from
    [mapper.py]: remove the archive from the name's ledger sequence and
    delete the ledger entry once the sequence is empty. *)
Definition ledger_remove (archive_id name : string)
  (lg : gmap string (list string)) : gmap string (list string) :=
  match lg !! name with
  | None => lg
  | Some seq =>
      match remove_first archive_id seq with
      | [] => delete name lg
      | seq' => <[name := seq']> lg
      end
  end.

(** Modelled from the spec: step (b) of unload, which is absent from
    [mapper.py]: delete the leaf at the resolved path when it is a File
    node of this archive; otherwise the tree is left alone. *)
Definition release_leaf (archive_id name : string) (self : DefaultMapper)
  : DefaultMapper :=
  let '(frags, leaf) := pathmaker self name in
  match leaf with
  | None => self
  | Some key =>
      match deref (Dir (mapping self)) (frags ++ [key]) with
      | Some (File a _ _) =>
          if String.eqb a archive_id then
            with_mapping self (erase (mapping self) frags key)
          else self
      | _ => self
      end
  end.

(** Modelled from the spec: what unload does for one contributed name. *)
Definition unload_name (archive_id : string) (e : Engine) (name : string)
  : Engine :=
  mkEngine (release_leaf archive_id name (tree e))
           (registry e)
           (ledger_remove archive_id name (ledger e)).

(** Modelled from the spec: [unload(archive_id)], which is absent from
    [mapper.py] (the tests call it [_unload_infolist]).  It fails with the
    "not loaded" condition when the identifier is not in the registry;
    otherwise it unwinds the contributed names in their original order and
    then removes the registry entry. *)
Definition unload (archive_id : string) (e : Engine)
  : UnloadOutcome * Engine :=
  match registry e !! archive_id with
  | None => (NotLoaded, e)
  | Some names =>
      let e' := foldl (unload_name archive_id) e names in
      (Unloaded,
       mkEngine (tree e') (delete archive_id (registry e')) (ledger e'))
  end.

(** Modelled from the spec: step 3 of load, which [mapper.py] does not
    perform: append the effective name to the archive's contributed names
    and the archive to the ledger sequence of that name. *)
Definition record_entry (archive_id : string) (info : ZipInfo) (e : Engine)
  : Engine :=
  let name := ifilename_of (tree e) archive_id info in
  mkEngine (tree e)
           (<[archive_id := default [] (registry e !! archive_id) ++ [name]]>
              (registry e))
           (<[name := default [] (ledger e !! name) ++ [archive_id]]>
              (ledger e)).

(** Modelled from the spec: load with the records of step 3; the tree is
    updated by the loop body of [_load_infolist]. *)
Definition engine_load (archive_id : string) (entries : list ZipInfo)
  (e : Engine) : Engine :=
  foldl (λ e info,
           let e1 := record_entry archive_id info e in
           mkEngine (load_entry archive_id info (tree e1)).1.2
                    (registry e1) (ledger e1))
        (mkEngine (tree e)
                  (<[archive_id := default [] (registry e !! archive_id)]>
                     (registry e))
                  (ledger e))
        entries.

Definition new_engine (pm : PathMaker) (overwrite include_arcname : bool)
  : Engine :=
  mkEngine (new_mapper pm overwrite include_arcname) ∅ ∅.

(* ================================================================= *)
(** ** Relations used by the statements *)

(** Following the fragments of a path through nested directories. *)
Inductive reaches : Node → list string → Node → Prop :=
  | reaches_here n : reaches n [] n
  | reaches_child d frag child rest n :
      d !! frag = Some child →
      reaches child rest n →
      reaches (Dir d) (frag :: rest) n.

(** What a node keeps when the tree grows around it: a file stays the same
    tuple, a directory stays a directory. *)
Definition preserved (n n' : Node) : Prop :=
  match n with
  | File a f s => n' = File a f s
  | Dir _ => ∃ d', n' = Dir d'
  end.

(** The tree of [self'] extends the tree of [self] and the configuration
    is the same. *)
Definition grows (self self' : DefaultMapper) : Prop :=
  include_arcname self' = include_arcname self ∧
  overwrite self' = overwrite self ∧
  pathmaker self' = pathmaker self ∧
  ∀ p n, deref (Dir (mapping self)) p = Some n →
         ∃ n', deref (Dir (mapping self')) p = Some n' ∧ preserved n n'.

(** Some prefix of the path, possibly the path itself, is a file. *)
Definition file_above (m : gmap string Node) (p : list string) : Prop :=
  ∃ k a f s, deref (Dir m) (take k p) = Some (File a f s).

(** The directory fragments of an entry as the loop body computes them. *)
Definition entry_frags (self : DefaultMapper) (archive_path : string)
  (info : ZipInfo) : list string :=
  (pathmaker self (ifilename_of self archive_path info)).1.

Definition entry_leaf (self : DefaultMapper) (archive_path : string)
  (info : ZipInfo) : option string :=
  (pathmaker self (ifilename_of self archive_path info)).2.

Definition could_not_be_created (info : ZipInfo) (msg : string)
  : LogRecord :=
  (WARNING, "`" +:+ filename info +:+ "` could not be created: " +:+ msg).

Definition already_exists (info : ZipInfo) : LogRecord :=
  (INFO, "`" +:+ filename info +:+ "` already exists; ignoring").

(** The object after the write [target[filename] = (archive_path,
    info.filename, info.file_size)] at the cursor [frags]. *)
Definition written (self1 : DefaultMapper) (frags : list string)
  (key archive_path : string) (info : ZipInfo) : DefaultMapper :=
  with_mapping self1
    (store (mapping self1) frags key
       (File archive_path (filename info) (file_size info))).

(** The record [load_archive] logs for each exception it catches. *)
Definition failure_record (archive_path : string) (e : Exn) : LogRecord :=
  match e with
  | BadZipFile =>
      (WARNING,
       "`" +:+ archive_path +:+ "` appears to be an invalid archive file")
  | FileNotFoundError =>
      (WARNING, "`" +:+ archive_path +:+ "` does not exist.")
  | _ => (EXCEPTION, "Exception")
  end.

(* ================================================================= *)
(** ** [DefaultMapper.readfile] *)

(** [zipfile.ZipFile(archive_filename)] as [readfile] uses it: opening the
    archive raises or gives [zf], and [zf.open(filename).read()] raises or
    gives the bytes of the member. *)
Definition ZipReader : Type :=
  string → Result (string → Result (list Byte.byte)).

(** The message of the [ValueError] that unpacking [n] values into three
    names raises (Python 3 wording). *)
Definition unpack_message (n : nat) : string :=
  match n with
  | 0%nat => "not enough values to unpack (expected 3, got 0)"
  | 1%nat => "not enough values to unpack (expected 3, got 1)"
  | 2%nat => "not enough values to unpack (expected 3, got 2)"
  | _ => "too many values to unpack (expected 3)"
  end.

(** For each path, the order in which Python iterates over the dictionary
    that [traverse] returns for it.  The order belongs to the dictionary
    object (insertion order since Python 3.7, arbitrary before) and the
    finite map does not record it, so it is a parameter; the statements
    assume at most that it enumerates the keys of that dictionary. *)
Definition DictOrder : Type := string → list string.

(** [archive_filename, filename, _ = info].  [None] cannot be unpacked
    ([TypeError]); a file tuple gives its first two components; a
    dictionary is iterated over its keys, in the order [order], so it
    unpacks only when it has exactly three of them. *)
Definition unpack_info (order : list string) (info : option Node)
  : Result (string * string) :=
  match info with
  | None => Raise (OtherException "TypeError")
  | Some (File archive_filename filename _) =>
      Return (archive_filename, filename)
  | Some (Dir _) =>
      match order with
      | [k1; k2; _] => Return (k1, k2)
      | ks => Raise (ValueError (unpack_message (length ks)))
      end
  end.

(** No [try] surrounds the body: every exception goes to the caller. *)
Definition readfile (ZipFile : ZipReader) (iteration : DictOrder)
  (path : string) : M (list Byte.byte) :=
  info <- traverse path ;;
  match unpack_info (iteration path) info with
  | Raise e => raise e
  | Return (archive_filename, filename) =>
      match ZipFile archive_filename with
      | Raise e => raise e
      | Return zf =>
          match zf filename with
          | Raise e => raise e
          | Return content => ret content
          end
      end
  end.

(* ================================================================= *)
(** ** Further relations used by the statements *)

(** The reader can still open every archive the lister opens, and every
    member that archive listed. *)
Definition reader_agrees (lister : ZipFiles) (reader : ZipReader) : Prop :=
  ∀ a infolist,
    lister a = Return infolist →
    ∃ zf, reader a = Return zf ∧
          ∀ info, info ∈ infolist →
                  ∃ content, zf (filename info) = Return content.

(** The path of the child [name] of the directory at [path], as
    [traverse] reads paths: the root is the empty path. *)
Definition child_path (path name : string) : string :=
  match path with
  | EmptyString => name
  | _ => path +:+ "/" +:+ name
  end.

(** The entry has nothing left to do in this tree: a file blocks its
    directories, or they exist and the leaf is absent from the entry or
    present in the tree. *)
Definition settled (self : DefaultMapper) (archive_path : string)
  (info : ZipInfo) : Prop :=
  let frags := entry_frags self archive_path info in
  let name := entry_leaf self archive_path info in
  file_above (mapping self) frags ∨
  (is_dict (deref (Dir (mapping self)) frags) = true ∧
   (truthy name = false ∨
    is_Some (deref (Dir (mapping self)) (frags ++ [default "" name])))).

(* ================================================================= *)
(** ** Fixtures of [tests/test_mapper.py] *)

(** [m.mapping['notdir'] = ('somezip.zip', 'afile', 1)] on a fresh mapper. *)
Definition blocked_mapper : DefaultMapper :=
  mkMapper false false default_pathmaker
    {[ "notdir" := File "somezip.zip" "afile" 1 ]}.

(** The entries of [demo1.zip] and [demo2.zip], in archive order. *)
Definition demo1 : list ZipInfo :=
  [zipinfo "file1" 33; zipinfo "file2" 33; zipinfo "file3" 33;
   zipinfo "file4" 33; zipinfo "file5" 33; zipinfo "file6" 33].

Definition demo2 : list ZipInfo :=
  [zipinfo "demo/" 0; zipinfo "demo/file4" 33; zipinfo "demo/file3" 33;
   zipinfo "demo/file5" 33; zipinfo "demo/file6" 33;
   zipinfo "demo/file1" 33; zipinfo "demo/file2" 33].

Definition demo3 : list ZipInfo :=
  [zipinfo "demo/" 0; zipinfo "demo/some/" 0; zipinfo "demo/some/path" 31;
   zipinfo "demo/dir3/" 0; zipinfo "demo/dir3/dir3/" 0;
   zipinfo "demo/dir3/dir3/file5" 33; zipinfo "demo/some_path" 32;
   zipinfo "demo/dir1/" 0; zipinfo "demo/dir1/file4" 33;
   zipinfo "demo/dir1/file3" 33; zipinfo "demo/dir1/file1" 33;
   zipinfo "demo/dir1/file2" 33; zipinfo "demo/dir2/" 0;
   zipinfo "demo/dir4/" 0; zipinfo "demo/dir4/dir5/" 0;
   zipinfo "demo/dir4/dir5/dir6/" 0;
   zipinfo "demo/dir4/dir5/dir6/file6" 33;
   zipinfo "demo/dir4/dir5/dir6/dir7/" 0].

Definition demo4 : list ZipInfo :=
  [zipinfo "demo/" 0; zipinfo "demo/dir1/" 0; zipinfo "demo/dir1/file3" 26;
   zipinfo "demo/dir1/file5" 26; zipinfo "demo/dir1/file1" 26;
   zipinfo "demo/dir2/" 0; zipinfo "demo/dir2/file2" 26; zipinfo "hello" 6].

(** A mapper whose tree holds the file leaf [demo]
    ([test_mapping_simple_nested_blocked]). *)
Definition demo_leaf_mapper : DefaultMapper :=
  mkMapper false false default_pathmaker
    {[ "demo" := File "somezip.zip" "notadir" 0 ]}.

(** A file system with the archives of the tests; [bad.zip] is not a zip
    file and every other path is missing. *)
Definition test_archives : ZipFiles := λ p,
  if String.eqb p "demo1.zip" then Return demo1
  else if String.eqb p "demo2.zip" then Return demo2
  else if String.eqb p "demo3.zip" then Return demo3
  else if String.eqb p "demo4.zip" then Return demo4
  else if String.eqb p "conflict.zip" then Return [zipinfo "demo" 0]
  else if String.eqb p "bad.zip" then Raise BadZipFile
  else Raise FileNotFoundError.

(** [DefaultMapper(include_arcname=True)] *)
Definition arcname_mapper : DefaultMapper :=
  new_mapper default_pathmaker false true.

(** A reader for the archives of the tests: each listed member holds its
    own name as content; anything else is a [KeyError]. *)
Definition test_reader : ZipReader := λ a,
  match test_archives a with
  | Return infolist =>
      Return (λ name,
                if existsb (λ info, String.eqb (filename info) name) infolist
                then Return (String.list_byte_of_string name)
                else Raise (OtherException "KeyError"))
  | Raise e => Raise e
  end.

(** The object after [m = DefaultMapper()] and [m.load_archive(path)]. *)
Definition loaded (path : string) : DefaultMapper :=
  (load_archive test_archives path
     (new_mapper default_pathmaker false false)).1.2.

(** The object after [m = DefaultMapper(overwrite=True)] and
    [m.load_archive('demo2.zip')]. *)
Definition overwriting : DefaultMapper :=
  (load_archive test_archives "demo2.zip"
     (new_mapper default_pathmaker true false)).1.2.

(** The pathmaker module of the tests: it has the one attribute
    [default]. *)
Definition test_pathmakers : PathMakerModule := λ name,
  if String.eqb name "default" then Return default_pathmaker
  else Raise (OtherException "AttributeError").

(** The iteration order of a dictionary built by inserting [file5],
    [file6] and [file7] in that order, as [dummy_mapping] is in the tests. *)
Definition dummy_order : DictOrder := λ _, ["file5"; "file6"; "file7"].

(** The engine of the spec after loading [demo3.zip] and then [demo4.zip]. *)
Definition engine_demo34 : Engine :=
  engine_load "demo4.zip" demo4
    (engine_load "demo3.zip" demo3 (new_engine default_pathmaker false false)).

(** The engine of the spec after loading [demo1.zip], and after unloading
    it again. *)
Definition engine_demo1 : Engine :=
  engine_load "demo1.zip" demo1 (new_engine default_pathmaker false false).

Definition engine_unloaded : Engine := (unload "demo1.zip" engine_demo1).2.

(** [m.mapping = {'file5': ..., 'file6': ..., 'file7': ...}] of the two
    overwrite tests. *)
Definition dummy_mapping : gmap string Node :=
  {[ "file5" := File "dummy.zip" "file5" 1;
     "file6" := File "dummy.zip" "file6" 1;
     "file7" := File "dummy.zip" "file7" 1 ]}.

(* ================================================================= *)
(** * Properties *)

(** ** The tests of [tests/test_mapper.py] on the embedding *)

Example split_examples :
  split "demo/dir1/file1" = ["demo"; "dir1"; "file1"] ∧
  split "demo/" = ["demo"; ""] ∧ split "" = [""] ∧
  basename "/tmp/demo1.zip" = "demo1.zip".
Proof. split_and!; reflexivity. Qed.

Example test_null_traverse :
  let m := new_mapper default_pathmaker false false in
  (traverse "" m).1.1 = Return (Some (Dir (mapping m))) ∧
  (traverse "nowhere" m).1.1 = Return None.
Proof. split; vm_compute; reflexivity. Qed.

Example test_mkdir :
  let m := new_mapper default_pathmaker false false in
  let m1 := (mkdir ["1"; "2"; "3"] m).1.2 in
  (mkdir ["1"; "2"; "3"] m).1.1 = Return ["1"; "2"; "3"] ∧
  mapping m1 = {[ "1" := Dir {[ "2" := Dir {[ "3" := Dir ∅ ]} ]} ]} ∧
  mkdir ["1"; "2"; "3"] m1 = (Return ["1"; "2"; "3"], m1, []).
Proof. split_and!; vm_compute; reflexivity. Qed.

Example test_mkdir_blocked :
  (mkdir ["notdir"] blocked_mapper).1
  = (Raise (ValueError
              "cannot create directory `notdir` at `/`: file entry exists."),
     blocked_mapper).
Proof. vm_compute; reflexivity. Qed.

Example test_readdir_alt :
  let m := with_mapping blocked_mapper
             (<["1" := Dir ∅]> (mapping blocked_mapper)) in
  (readdir "" m).1.1 = Return ["1"; "notdir"] ∧
  (readdir "notdir" m).1.1 = Return [] ∧
  (readdir "nowhere" m).1.1 = Return [].
Proof. split_and!; vm_compute; reflexivity. Qed.

Example test_mapping_bad :
  (load_archives test_archives ["bad.zip"; "nosuchzip.zip"]
     (new_mapper default_pathmaker false false)).1
  = (Return [false; false], new_mapper default_pathmaker false false).
Proof. vm_compute; reflexivity. Qed.

Example test_mapping_simple_nested :
  mapping (loaded "demo2.zip")
  = {[ "demo" := Dir {[ "file1" := File "demo2.zip" "demo/file1" 33;
                        "file2" := File "demo2.zip" "demo/file2" 33;
                        "file3" := File "demo2.zip" "demo/file3" 33;
                        "file4" := File "demo2.zip" "demo/file4" 33;
                        "file5" := File "demo2.zip" "demo/file5" 33;
                        "file6" := File "demo2.zip" "demo/file6" 33 ]} ]} ∧
  (traverse "demo/file1" (loaded "demo2.zip")).1.1
  = Return (Some (File "demo2.zip" "demo/file1" 33)).
Proof. split; vm_compute; reflexivity. Qed.

Example test_mapping_complex_multiple :
  let m := (load_archive test_archives "demo4.zip" (loaded "demo3.zip")).1.2 in
  mapping m
  = {[ "hello" := File "demo4.zip" "hello" 6;
       "demo" := Dir
         {[ "dir1" := Dir
              {[ "file1" := File "demo3.zip" "demo/dir1/file1" 33;
                 "file2" := File "demo3.zip" "demo/dir1/file2" 33;
                 "file3" := File "demo3.zip" "demo/dir1/file3" 33;
                 "file4" := File "demo3.zip" "demo/dir1/file4" 33;
                 "file5" := File "demo4.zip" "demo/dir1/file5" 26 ]};
            "dir2" := Dir {[ "file2" := File "demo4.zip" "demo/dir2/file2" 26 ]};
            "dir3" := Dir
              {[ "dir3" := Dir
                   {[ "file5" := File "demo3.zip" "demo/dir3/dir3/file5" 33 ]} ]};
            "dir4" := Dir
              {[ "dir5" := Dir
                   {[ "dir6" := Dir
                        {[ "file6" :=
                             File "demo3.zip" "demo/dir4/dir5/dir6/file6" 33;
                           "dir7" := Dir ∅ ]} ]} ]};
            "some" := Dir {[ "path" := File "demo3.zip" "demo/some/path" 31 ]};
            "some_path" := File "demo3.zip" "demo/some_path" 32 ]} ]}.
Proof. vm_compute; reflexivity. Qed.

Example test_mapping_overwrite :
  let keep := mkMapper false false default_pathmaker dummy_mapping in
  let replace := mkMapper false true default_pathmaker dummy_mapping in
  mapping (load_archive test_archives "demo1.zip" keep).1.2
  = {[ "file1" := File "demo1.zip" "file1" 33;
       "file2" := File "demo1.zip" "file2" 33;
       "file3" := File "demo1.zip" "file3" 33;
       "file4" := File "demo1.zip" "file4" 33;
       "file5" := File "dummy.zip" "file5" 1;
       "file6" := File "dummy.zip" "file6" 1;
       "file7" := File "dummy.zip" "file7" 1 ]} ∧
  mapping (load_archive test_archives "demo1.zip" replace).1.2
  = {[ "file1" := File "demo1.zip" "file1" 33;
       "file2" := File "demo1.zip" "file2" 33;
       "file3" := File "demo1.zip" "file3" 33;
       "file4" := File "demo1.zip" "file4" 33;
       "file5" := File "demo1.zip" "file5" 33;
       "file6" := File "demo1.zip" "file6" 33;
       "file7" := File "dummy.zip" "file7" 1 ]}.
Proof. split; vm_compute; reflexivity. Qed.

(** ** Splitting paths *)

Lemma split_nonempty s : split s ≠ [].
Proof.
  destruct s as [|c s]; simpl; [done|].
  destruct (Ascii.eqb c slash); [done|]. by destruct (split s).
Qed.

(** [split] cuts at every separator and nowhere else: joining gives the
    path back and no fragment contains a separator. *)
Lemma join_split s : join (split s) = s.
Proof.
  unfold join. induction s as [|c s IH]; simpl; [done|].
  pose proof (split_nonempty s) as Hne.
  destruct (Ascii.eqb c slash) eqn:Hc.
  - apply Ascii.eqb_eq in Hc as ->.
    destruct (split s) as [|w ws]; [done|].
    rewrite <- IH. reflexivity.
  - destruct (split s) as [|w ws]; [done|].
    rewrite <- IH. by destruct ws.
Qed.

Lemma split_no_slash s : Forall (λ w, has_slash w = false) (split s).
Proof.
  induction s as [|c s IH]; simpl; [by constructor|].
  destruct (Ascii.eqb c slash) eqn:Hc; [by constructor|].
  destruct (split s) as [|w ws]; [by repeat constructor; simpl; rewrite Hc|].
  inversion IH as [|? ? Hw Hws]; subst.
  constructor; [|done]. simpl. by rewrite Hc.
Qed.

(** ** Cursors *)

Lemma deref_app n p q :
  deref n (p ++ q) = deref n p ≫= λ n', deref n' q.
Proof.
  revert n. induction p as [|k p IH]; intros n; simpl; [done|].
  destruct n as [a f s|d]; [done|].
  destruct (d !! k) as [child|]; [apply IH|done].
Qed.

Lemma deref_file_nonempty a f s p n :
  deref (File a f s) p = Some n → p = [].
Proof. destruct p; [done|discriminate]. Qed.

Lemma preserved_refl n : preserved n n.
Proof. destruct n; simpl; eauto. Qed.

Lemma preserved_trans n1 n2 n3 :
  preserved n1 n2 → preserved n2 n3 → preserved n1 n3.
Proof.
  destruct n1; simpl.
  - intros ->. simpl. done.
  - intros [d' ->]. simpl. done.
Qed.

(** Writing a key at a valid cursor makes the value readable there. *)
Lemma deref_store_here d cur key v sub :
  deref (Dir d) cur = Some (Dir sub) →
  deref (Dir (store d cur key v)) (cur ++ [key]) = Some v.
Proof.
  revert d. induction cur as [|k cur IH]; intros d; simpl.
  - intros _. by rewrite lookup_insert_eq.
  - destruct (d !! k) as [[a f s|sub']|] eqn:Hk; try discriminate.
    + destruct cur; discriminate.
    + intros H. rewrite lookup_insert_eq. by apply IH.
Qed.

(** Writing a key that the target directory does not hold keeps every
    node of the tree in place. *)
Lemma store_fresh_preserves cur : ∀ d key v p n,
  has_key (deref (Dir d) cur) key = false →
  deref (Dir d) p = Some n →
  ∃ n', deref (Dir (store d cur key v)) p = Some n' ∧ preserved n n'.
Proof.
  induction cur as [|k cur IH]; intros d key v p n Hfresh Hp; simpl in *.
  - apply bool_decide_eq_false in Hfresh.
    destruct p as [|k' p]; simpl in *.
    + injection Hp as <-. eexists; split; [done|]. simpl. eauto.
    + destruct (d !! k') as [child|] eqn:Hk'; [|discriminate].
      assert (key ≠ k') as Hne.
      { intros ->. apply Hfresh. rewrite Hk'. eauto. }
      rewrite lookup_insert_ne by done. rewrite Hk'.
      eexists; split; [done|apply preserved_refl].
  - destruct (d !! k) as [[a f s|sub]|] eqn:Hk;
      try (eexists; split; [done|apply preserved_refl]).
    destruct p as [|k' p]; simpl in *.
    + injection Hp as <-. eexists; split; [done|]. simpl. eauto.
    + destruct (decide (k = k')) as [<-|Hne].
      * rewrite lookup_insert_eq. rewrite Hk in Hp.
        by apply IH.
      * rewrite lookup_insert_ne by done.
        destruct (d !! k') as [child|]; [|discriminate].
        eexists; split; [done|apply preserved_refl].
Qed.

Lemma grows_refl self : grows self self.
Proof.
  repeat split. intros p n Hp. eexists; split; [done|apply preserved_refl].
Qed.

Lemma grows_trans s1 s2 s3 : grows s1 s2 → grows s2 s3 → grows s1 s3.
Proof.
  intros (Hi1 & Ho1 & Hp1 & H1) (Hi2 & Ho2 & Hp2 & H2).
  repeat split; try congruence.
  intros p n Hp. destruct (H1 p n Hp) as (n' & Hn' & Hpres).
  destruct (H2 p n' Hn') as (n'' & Hn'' & Hpres').
  eexists; split; [done|]. by eapply preserved_trans.
Qed.

(** ** [mkdir] *)

Lemma mkdir_loop_cons pf c frag rest cur self :
  mkdir_loop pf c (frag :: rest) cur self =
  if has_key (deref (Dir (mapping self)) cur) frag then
    if is_dict (deref (Dir (mapping self)) (cur ++ [frag])) then
      mkdir_loop pf (S c) rest (cur ++ [frag]) self
    else (Raise (ValueError (mkdir_message pf c frag)), self, [])
  else
    mkdir_loop pf (S c) rest (cur ++ [frag])
      (with_mapping self (store (mapping self) cur frag (Dir ∅))).
Proof.
  cbn [mkdir_loop]. unfold bind at 1. unfold contains, bind, read, ret.
  destruct (has_key _ frag); cbn.
  - unfold isinstance_dict, bind, read, ret; cbn.
    destruct (is_dict _); cbn; [|done].
    by destruct (mkdir_loop _ _ _ _ _) as [[[]]].
  - unfold setitem.
    by destruct (mkdir_loop _ _ _ _ _) as [[[]]].
Qed.

Lemma with_mapping_same self : with_mapping self (mapping self) = self.
Proof. by destruct self. Qed.

Lemma grows_store_fresh self cur key v :
  has_key (deref (Dir (mapping self)) cur) key = false →
  grows self (with_mapping self (store (mapping self) cur key v)).
Proof.
  intros Hfresh. repeat split. intros p n Hp. cbn.
  by apply store_fresh_preserves.
Qed.

(** From a directory that was just created the loop only creates: it
    cannot meet a file, returns the full cursor and logs nothing. *)
Lemma mkdir_loop_from_empty pf rest : ∀ c cur self,
  deref (Dir (mapping self)) cur = Some (Dir ∅) →
  ∃ self', mkdir_loop pf c rest cur self = (Return (cur ++ rest), self', []) ∧
           is_dict (deref (Dir (mapping self')) (cur ++ rest)) = true.
Proof.
  induction rest as [|frag rest IH]; intros c cur self Hcur.
  - exists self. rewrite app_nil_r, Hcur. done.
  - rewrite mkdir_loop_cons, Hcur. cbn [has_key].
    rewrite lookup_empty, bool_decide_eq_false_2 by (by intros [? ?]).
    destruct (IH (S c) (cur ++ [frag])
                (with_mapping self (store (mapping self) cur frag (Dir ∅))))
      as (self' & Hrun & Hdir).
    { cbn. by eapply deref_store_here. }
    exists self'. by rewrite <- app_assoc in Hrun, Hdir.
Qed.

(** The loop of [mkdir] started at a directory: either it raises
    [ValueError] and the object is exactly as before, or it returns the
    cursor of a directory in a tree that has only grown. *)
Lemma mkdir_loop_spec pf rest : ∀ c cur self,
  is_dict (deref (Dir (mapping self)) cur) = true →
  (∃ msg, mkdir_loop pf c rest cur self = (Raise (ValueError msg), self, []))
  ∨ (∃ self', mkdir_loop pf c rest cur self = (Return (cur ++ rest), self', [])
              ∧ grows self self'
              ∧ is_dict (deref (Dir (mapping self')) (cur ++ rest)) = true).
Proof.
  induction rest as [|frag rest IH]; intros c cur self Hcur.
  - right. exists self. rewrite app_nil_r. split_and!; [done|apply grows_refl|done].
  - rewrite mkdir_loop_cons.
    destruct (has_key _ frag) eqn:Hin.
    + destruct (is_dict (deref _ (cur ++ [frag]))) eqn:Hdir; [|left; eauto].
      destruct (IH (S c) (cur ++ [frag]) self Hdir)
        as [[msg Hraise]|(self' & Hrun & Hgrow & Hd)]; [left; eauto|].
      right. exists self'. by rewrite <- app_assoc in Hrun, Hd.
    + right.
      destruct (deref (Dir (mapping self)) cur) as [[a f s|sub]|] eqn:Hc;
        try discriminate.
      set (self1 := with_mapping self (store (mapping self) cur frag (Dir ∅))).
      assert (deref (Dir (mapping self1)) (cur ++ [frag]) = Some (Dir ∅))
        as Hnew by (cbn; by eapply deref_store_here).
      assert (grows self self1) as Hstep.
      { apply grows_store_fresh. by rewrite Hc. }
      destruct (mkdir_loop_from_empty pf rest (S c) _ _ Hnew)
        as (self' & Hrun & Hd).
      destruct (IH (S c) (cur ++ [frag]) self1)
        as [[msg Hraise]|(self'' & Hrun' & Hgrow & _)].
      { by rewrite Hnew. }
      { rewrite Hrun in Hraise. discriminate. }
      rewrite Hrun in Hrun'. injection Hrun' as <-.
      exists self'. rewrite <- app_assoc in Hrun, Hd.
      split_and!; [done|by eapply grows_trans|done].
Qed.

Lemma deref_app_Some n p q x :
  deref n (p ++ q) = Some x → ∃ y, deref n p = Some y ∧ deref y q = Some x.
Proof.
  rewrite deref_app. destruct (deref n p) as [y|]; [|discriminate].
  simpl. eauto.
Qed.

Lemma deref_cons_Some y k q x :
  deref y (k :: q) = Some x →
  ∃ d child, y = Dir d ∧ d !! k = Some child ∧ deref child q = Some x.
Proof.
  simpl. destruct y as [a f s|d]; [discriminate|].
  destruct (d !! k) as [child|] eqn:Hk; [|discriminate]. eauto.
Qed.

Lemma deref_snoc_has_key n p k x :
  deref n (p ++ [k]) = Some x → has_key (deref n p) k = true.
Proof.
  intros (y & -> & Hy)%deref_app_Some.
  apply deref_cons_Some in Hy as (d & child & -> & Hk & _).
  simpl. apply bool_decide_eq_true. eauto.
Qed.

Lemma has_key_deref_snoc n p k :
  has_key (deref n p) k = true → is_Some (deref n (p ++ [k])).
Proof.
  rewrite deref_app.
  destruct (deref n p) as [[a f s|d]|]; simpl; try discriminate.
  intros [child ->]%bool_decide_eq_true. eauto.
Qed.

Lemma mkdir_spec frags self :
  (∃ msg, mkdir frags self = (Raise (ValueError msg), self, []))
  ∨ (∃ self', mkdir frags self = (Return frags, self', [])
              ∧ grows self self'
              ∧ is_dict (deref (Dir (mapping self')) frags) = true).
Proof. by apply (mkdir_loop_spec frags frags 0 [] self). Qed.

(** A file somewhere along the remaining fragments stops the loop. *)
Lemma mkdir_loop_blocked pf rest : ∀ c cur self k a f s,
  is_dict (deref (Dir (mapping self)) cur) = true →
  deref (Dir (mapping self)) (cur ++ take k rest) = Some (File a f s) →
  ∃ msg, mkdir_loop pf c rest cur self = (Raise (ValueError msg), self, []).
Proof.
  induction rest as [|frag rest IH]; intros c cur self k a f s Hcur Hfile.
  - rewrite take_nil, app_nil_r in Hfile. by rewrite Hfile in Hcur.
  - destruct k as [|k]; simpl in Hfile.
    { rewrite app_nil_r in Hfile. by rewrite Hfile in Hcur. }
    rewrite cons_middle, (assoc_L (++) cur [frag]) in Hfile.
    rewrite mkdir_loop_cons.
    destruct (deref_app_Some _ _ _ _ Hfile) as (y & Hy & _).
    rewrite (deref_snoc_has_key _ _ _ _ Hy).
    destruct (is_dict (deref _ (cur ++ [frag]))) eqn:Hd; [|eauto].
    by eapply IH.
Qed.

Lemma mkdir_blocked frags self k a f s :
  deref (Dir (mapping self)) (take k frags) = Some (File a f s) →
  ∃ msg, mkdir frags self = (Raise (ValueError msg), self, []).
Proof. intros H. by eapply (mkdir_loop_blocked frags frags 0 []). Qed.

(** When the whole path already consists of directories nothing is
    created. *)
Lemma mkdir_loop_existing pf rest : ∀ c cur self,
  is_dict (deref (Dir (mapping self)) (cur ++ rest)) = true →
  mkdir_loop pf c rest cur self = (Return (cur ++ rest), self, []).
Proof.
  induction rest as [|frag rest IH]; intros c cur self Hd.
  - by rewrite app_nil_r.
  - rewrite cons_middle, (assoc_L (++) cur [frag] rest) in Hd |- *.
    rewrite mkdir_loop_cons.
    destruct (deref (Dir (mapping self)) ((cur ++ [frag]) ++ rest))
      as [x|] eqn:Hx; [|discriminate].
    destruct (deref_app_Some _ _ _ _ Hx) as (y & Hy & Hrest).
    rewrite (deref_snoc_has_key _ _ _ _ Hy), Hy.
    assert (is_dict (Some y) = true) as ->.
    { destruct rest as [|k rest]; simpl in Hrest.
      - injection Hrest as ->. done.
      - by destruct y. }
    apply IH. by rewrite Hx.
Qed.

Lemma mkdir_existing frags self :
  is_dict (deref (Dir (mapping self)) frags) = true →
  mkdir frags self = (Return frags, self, []).
Proof. intros H. by apply (mkdir_loop_existing frags frags 0 []). Qed.

(** A raise of the loop: nothing has been created, and the fragment named
    in the message exists as a file. *)
Lemma mkdir_loop_raise pf rest : ∀ c cur self e self' l,
  is_dict (deref (Dir (mapping self)) cur) = true →
  mkdir_loop pf c rest cur self = (Raise e, self', l) →
  self' = self ∧ l = [] ∧
  ∃ j frag a f s,
    rest !! j = Some frag ∧
    deref (Dir (mapping self)) (cur ++ take (S j) rest) = Some (File a f s) ∧
    e = ValueError (mkdir_message pf (c + j) frag).
Proof.
  induction rest as [|frag rest IH]; intros c cur self e self' l Hcur Hrun.
  - discriminate.
  - rewrite mkdir_loop_cons in Hrun.
    destruct (has_key _ frag) eqn:Hin.
    + destruct (is_dict (deref _ (cur ++ [frag]))) eqn:Hdir.
      * destruct (IH _ _ _ _ _ _ Hdir Hrun)
          as (-> & -> & j & frag' & a & f & s & Hj & Hfile & ->).
        split_and!; [done..|].
        exists (S j), frag', a, f, s. split_and!; [done| |].
        -- by rewrite firstn_cons, cons_middle, (assoc_L (++)).
        -- by rewrite Nat.add_succ_r.
      * injection Hrun as <- <- <-. split_and!; [done..|].
        destruct (has_key_deref_snoc _ _ _ Hin) as [[a f s|d] Hy];
          [|by rewrite Hy in Hdir].
        exists 0%nat, frag, a, f, s. split_and!; [done|done|].
        by rewrite Nat.add_0_r.
    + destruct (deref (Dir (mapping self)) cur) as [[a f s|sub]|] eqn:Hc;
        try discriminate.
      destruct (mkdir_loop_from_empty pf rest (S c) (cur ++ [frag])
                  (with_mapping self (store (mapping self) cur frag (Dir ∅))))
        as (self1 & Hret & _).
      { cbn. by eapply deref_store_here. }
      rewrite Hret in Hrun. discriminate.
Qed.

(** ** The loop body of [_load_infolist] *)

Lemma load_entry_cases archive_path info self :
  let frags := entry_frags self archive_path info in
  let name := entry_leaf self archive_path info in
  (∃ msg, mkdir frags self = (Raise (ValueError msg), self, []) ∧
          load_entry archive_path info self =
          (Return tt, self, [could_not_be_created info msg]))
  ∨ (∃ self1, mkdir frags self = (Return frags, self1, []) ∧
       grows self self1 ∧
       is_dict (deref (Dir (mapping self1)) frags) = true ∧
       load_entry archive_path info self =
       if negb (truthy name) then (Return tt, self1, [])
       else if has_key (deref (Dir (mapping self1)) frags) (default "" name)
               && negb (overwrite self)
            then (Return tt, self1, [already_exists info])
            else (Return tt,
                  written self1 frags (default "" name) archive_path info,
                  [])).
Proof.
  unfold entry_frags, entry_leaf.
  destruct (pathmaker self _) as [frags name] eqn:Hpm. cbn [fst snd].
  destruct (mkdir_spec frags self) as [[msg Hm]|(self1 & Hm & Hg & Hd)].
  - left. exists msg. split; [done|].
    unfold load_entry, bind, get_self, try_except, ret, logger.
    rewrite Hpm, Hm. done.
  - right. exists self1. split_and!; try done.
    unfold load_entry, bind, get_self, try_except, ret, logger, contains,
      read, setitem.
    rewrite Hpm, Hm. cbn. destruct (truthy name); cbn; [|done].
    destruct Hg as (_ & -> & _).
    destruct (has_key _ _ && negb (overwrite self)); done.
Qed.

(** The loop body always completes; it keeps the configuration, and without
    [overwrite] the tree only grows. *)
Lemma load_entry_total archive_path info self :
  ∃ self' l,
    load_entry archive_path info self = (Return tt, self', l) ∧
    include_arcname self' = include_arcname self ∧
    overwrite self' = overwrite self ∧
    pathmaker self' = pathmaker self ∧
    (overwrite self = false → grows self self').
Proof.
  destruct (load_entry_cases archive_path info self)
    as [(msg & _ & ->)|(self1 & _ & Hg & Hd & ->)].
  { do 2 eexists. split_and!; try done. intros _. apply grows_refl. }
  pose proof Hg as (Hi & Ho & Hp & _).
  destruct (negb (truthy _)).
  { do 2 eexists. split_and!; done. }
  destruct (has_key _ _) eqn:Hin; cbn [andb].
  - destruct (negb (overwrite self)) eqn:Hov.
    + do 2 eexists. split_and!; done.
    + do 2 eexists. split_and!; try done.
      intros Hf. by rewrite Hf in Hov.
  - do 2 eexists. split_and!; try done.
    intros _. eapply grows_trans; [done|]. by apply grows_store_fresh.
Qed.

Lemma _load_infolist_cons archive_path info rest self :
  _load_infolist archive_path (info :: rest) self =
  let '(_, self1, l1) := load_entry archive_path info self in
  let '(r, self2, l2) := _load_infolist archive_path rest self1 in
  (r, self2, l1 ++ l2).
Proof.
  cbn [_load_infolist]. unfold bind.
  destruct (load_entry_total archive_path info self)
    as (self1 & l1 & -> & _). done.
Qed.

(** No exception escapes [_load_infolist]. *)
Lemma _load_infolist_total archive_path infolist : ∀ self,
  ∃ self' l,
    _load_infolist archive_path infolist self = (Return tt, self', l) ∧
    include_arcname self' = include_arcname self ∧
    overwrite self' = overwrite self ∧
    pathmaker self' = pathmaker self ∧
    (overwrite self = false → grows self self').
Proof.
  induction infolist as [|info rest IH]; intros self.
  - exists self, []. split_and!; try done. intros _. apply grows_refl.
  - rewrite _load_infolist_cons.
    destruct (load_entry_total archive_path info self)
      as (self1 & l1 & -> & Hi1 & Ho1 & Hp1 & Hg1).
    destruct (IH self1) as (self2 & l2 & -> & Hi2 & Ho2 & Hp2 & Hg2).
    exists self2, (l1 ++ l2). split_and!; [done|congruence..|].
    intros Hf. eapply grows_trans; [by apply Hg1|].
    apply Hg2. congruence.
Qed.

(** ** [load_archive] *)

Lemma load_archive_failure ZipFile archive_path e self :
  ZipFile archive_path = Raise e →
  load_archive ZipFile archive_path self =
  (Return false, self, [failure_record archive_path e]).
Proof.
  intros H. unfold load_archive, try_except. rewrite H. cbn.
  by destruct e.
Qed.

Lemma load_archive_success ZipFile archive_path infolist self :
  ZipFile archive_path = Return infolist →
  ∃ self' l,
    _load_infolist archive_path infolist self = (Return tt, self', l) ∧
    load_archive ZipFile archive_path self =
    (Return true, self',
     l ++ [(INFO, "loaded `" +:+ archive_path +:+ "`")]).
Proof.
  intros H. unfold load_archive, try_except. rewrite H.
  destruct (_load_infolist_total archive_path infolist self)
    as (self' & l & Hrun & _).
  exists self', l. split; [done|].
  unfold bind, logger, ret. rewrite Hrun. done.
Qed.

Lemma load_archive_total ZipFile archive_path self :
  ∃ ok self' l,
    load_archive ZipFile archive_path self = (Return ok, self', l) ∧
    include_arcname self' = include_arcname self ∧
    overwrite self' = overwrite self ∧
    pathmaker self' = pathmaker self ∧
    (overwrite self = false → grows self self').
Proof.
  destruct (ZipFile archive_path) as [infolist|e] eqn:Hz.
  - destruct (load_archive_success _ _ _ self Hz) as (self' & l & Hrun & ->).
    destruct (_load_infolist_total archive_path infolist self)
      as (self'' & l' & Hrun' & H).
    rewrite Hrun in Hrun'. injection Hrun' as <- <-. eauto.
  - rewrite (load_archive_failure _ _ _ self Hz).
    do 3 eexists. split_and!; try done. intros _. apply grows_refl.
Qed.

Lemma load_archives_total ZipFile paths : ∀ self,
  ∃ oks self' l,
    load_archives ZipFile paths self = (Return oks, self', l) ∧
    overwrite self' = overwrite self ∧
    (overwrite self = false → grows self self').
Proof.
  induction paths as [|p ps IH]; intros self.
  - exists [], self, []. split_and!; try done. intros _. apply grows_refl.
  - destruct (load_archive_total ZipFile p self)
      as (ok & self1 & l1 & Hrun1 & _ & Ho1 & _ & Hg1).
    destruct (IH self1) as (oks & self2 & l2 & Hrun2 & Ho2 & Hg2).
    exists (ok :: oks), self2, (l1 ++ l2 ++ []).
    split_and!; [|congruence|].
    + cbn [load_archives]. unfold bind, ret. rewrite Hrun1, Hrun2. done.
    + intros Hf. eapply grows_trans; [by apply Hg1|].
      apply Hg2. congruence.
Qed.

(** ** Paths as strings *)

Lemma split_single w : has_slash w = false → split w = [w].
Proof.
  induction w as [|c w IH]; simpl; [done|].
  destruct (Ascii.eqb c slash); [done|]. simpl.
  intros H. by rewrite IH.
Qed.

Lemma split_app_slash a b :
  split (a +:+ String slash b) = split a ++ split b.
Proof.
  induction a as [|c a IH]; simpl.
  - reflexivity.
  - destruct (Ascii.eqb c slash); rewrite IH; [done|].
    pose proof (split_nonempty a). by destruct (split a).
Qed.

Lemma append_slash_nonempty a b : a +:+ String slash b ≠ "".
Proof. by destruct a. Qed.

Lemma join_cons w v ws :
  join (w :: v :: ws) = w +:+ String slash (join (v :: ws)).
Proof. reflexivity. Qed.

Lemma split_join frags :
  frags ≠ [] → Forall (λ w, has_slash w = false) frags →
  split (join frags) = frags.
Proof.
  induction frags as [|w [|v ws] IH]; intros Hne Hall; [done| |].
  - inversion Hall; subst. by apply split_single.
  - rewrite join_cons, split_app_slash.
    inversion Hall; subst. rewrite split_single by done.
    by rewrite IH.
Qed.

Lemma path_fragments_of_join frags :
  Forall (λ w, has_slash w = false) frags → frags ≠ [""] →
  path_fragments_of (join frags) = frags.
Proof.
  intros Hall Hne. destruct frags as [|w [|v ws]].
  - done.
  - unfold join. simpl. destruct w as [|c w]; [done|].
    inversion Hall; subst. by apply (split_single (String c w)).
  - assert (path_fragments_of (join (w :: v :: ws))
            = split (join (w :: v :: ws))) as ->.
    { rewrite join_cons. by destruct w. }
    by apply split_join.
Qed.

Lemma path_fragments_of_child path name :
  has_slash name = false → (path = "" → name ≠ "") →
  path_fragments_of (child_path path name)
  = path_fragments_of path ++ [name].
Proof.
  intros Hname Hroot. destruct path as [|c path].
  - simpl. destruct name as [|c name]; [by destruct Hroot|].
    by apply (split_single (String c name)).
  - change (child_path (String c path) name)
      with (String c path +:+ String slash name).
    assert (path_fragments_of (String c path +:+ String slash name)
            = split (String c path +:+ String slash name)) as -> by done.
    rewrite split_app_slash, (split_single name) by done. done.
Qed.

Lemma path_fragments_of_below p q :
  p ≠ "" →
  path_fragments_of (p +:+ String slash q) = path_fragments_of p ++ split q.
Proof.
  intros Hp. destruct p as [|c p]; [done|].
  assert (path_fragments_of (String c p +:+ String slash q)
          = split (String c p +:+ String slash q)) as -> by done.
  by rewrite split_app_slash.
Qed.

Lemma join_path_fragments_of path : join (path_fragments_of path) = path.
Proof. destruct path; [done|]. apply join_split. Qed.

Lemma path_fragments_of_no_slash path :
  Forall (λ w, has_slash w = false) (path_fragments_of path).
Proof. destruct path; [constructor|]. apply split_no_slash. Qed.

Lemma path_fragments_of_not_empty_name path : path_fragments_of path ≠ [""].
Proof.
  intros H. pose proof (join_path_fragments_of path) as Hj.
  rewrite H in Hj. by subst path.
Qed.

(** ** [traverse] and [readdir] *)

Lemma traverse_loop_deref n p : traverse_loop n p = deref n p.
Proof.
  revert n. induction p as [|k p IH]; intros n; simpl; [done|].
  destruct n as [a f s|d]; [done|]. destruct (d !! k); [apply IH|done].
Qed.

Lemma reaches_deref n p x : reaches n p x ↔ deref n p = Some x.
Proof.
  split.
  - induction 1 as [n|d frag child rest n Hk _ IH]; simpl; [done|].
    by rewrite Hk.
  - revert n. induction p as [|k p IH]; intros n; simpl.
    + intros [= ->]. constructor.
    + destruct n as [a f s|d]; [discriminate|].
      destruct (d !! k) as [child|] eqn:Hk; [|discriminate].
      intros H. econstructor; eauto.
Qed.

(** Where a failed walk stops: at a file, or at a directory without the
    next fragment. *)
Lemma deref_None n p :
  deref n p = None ↔
  ∃ pre frag post y,
    p = pre ++ frag :: post ∧ deref n pre = Some y ∧
    match y with
    | File _ _ _ => True
    | Dir d => d !! frag = None
    end.
Proof.
  split.
  - revert n. induction p as [|k p IH]; intros n; simpl; [discriminate|].
    destruct n as [a f s|d].
    { intros _. by exists [], k, p, (File a f s). }
    destruct (d !! k) as [child|] eqn:Hk.
    + intros (pre & frag & post & y & -> & Hpre & Hy)%IH.
      exists (k :: pre), frag, post, y. simpl. by rewrite Hk.
    + intros _. by exists [], k, p, (Dir d).
  - intros (pre & frag & post & y & -> & Hpre & Hy).
    rewrite deref_app, Hpre. simpl.
    destruct y as [a f s|d]; [done|]. by rewrite Hy.
Qed.

Lemma traverse_eq path self :
  traverse path self =
  (Return (deref (Dir (mapping self)) (path_fragments_of path)), self, []).
Proof.
  unfold traverse, bind, get_self, ret. cbn.
  by rewrite traverse_loop_deref.
Qed.

Lemma readdir_eq path self :
  readdir path self =
  (Return match deref (Dir (mapping self)) (path_fragments_of path) with
          | Some (Dir d) => keys d
          | _ => []
          end, self, []).
Proof.
  unfold readdir, bind. rewrite traverse_eq.
  by destruct (deref _ _) as [[a f s|d]|].
Qed.

Lemma elem_of_keys (d : gmap string Node) k : k ∈ keys d ↔ is_Some (d !! k).
Proof.
  unfold keys. rewrite list_elem_of_fmap. split.
  - intros ([k' v] & -> & Hin). apply elem_of_map_to_list in Hin. eauto.
  - intros [v Hv]. exists (k, v). split; [done|].
    by apply elem_of_map_to_list.
Qed.

Lemma NoDup_keys (d : gmap string Node) : NoDup (keys d).
Proof. apply NoDup_fst_map_to_list. Qed.

(** C7: [traverse] returns the node reached by following the fragments of
    the ['/']-separated path through nested directories.  The fragments are
    the one list of slash-free names that joined with ['/'] give the path
    (the empty list for the empty path); the result is that node when the
    walk through nested directories reaches one, and [None] exactly when
    the walk stops early, at a file or at a directory that lacks the next
    fragment; the empty path returns the root mapping itself.  The call
    never raises. *)
Theorem traverse_follows_path (self : DefaultMapper) (path : string) :
  ∃ frags r,
    (join frags = path ∧
     Forall (λ w, has_slash w = false) frags ∧
     frags ≠ [""]) ∧
    (∀ frags', join frags' = path →
               Forall (λ w, has_slash w = false) frags' →
               frags' ≠ [""] → frags' = frags) ∧
    traverse path self = (Return r, self, []) ∧
    (∀ n, r = Some n ↔ reaches (Dir (mapping self)) frags n) ∧
    (r = None ↔
     ∃ pre frag post y,
       frags = pre ++ frag :: post ∧
       reaches (Dir (mapping self)) pre y ∧
       match y with
       | File _ _ _ => True
       | Dir d => d !! frag = None
       end) ∧
    traverse "" self = (Return (Some (Dir (mapping self))), self, []).
Proof.
  exists (path_fragments_of path),
         (deref (Dir (mapping self)) (path_fragments_of path)).
  split_and!.
  - apply join_path_fragments_of.
  - apply path_fragments_of_no_slash.
  - apply path_fragments_of_not_empty_name.
  - intros frags' <- Hall Hne. symmetry. by apply path_fragments_of_join.
  - apply traverse_eq.
  - intros n. by rewrite reaches_deref.
  - rewrite deref_None. by setoid_rewrite reaches_deref.
  - apply traverse_eq.
Qed.

(** C8: [readdir] returns the child names of the directory the path
    resolves to, each once, and the empty list when the path resolves to a
    file or to nothing; it never raises. *)
Theorem readdir_lists_children (self : DefaultMapper) (path : string) :
  ∃ l,
    readdir path self = (Return l, self, []) ∧
    match (traverse path self).1.1 with
    | Return (Some (Dir d)) => NoDup l ∧ ∀ k, k ∈ l ↔ is_Some (d !! k)
    | Return (Some (File _ _ _)) => l = []
    | Return None => l = []
    | Raise _ => False
    end.
Proof.
  rewrite readdir_eq, traverse_eq. cbn [fst].
  eexists. split; [done|].
  destruct (deref _ _) as [[a f s|d]|]; try done.
  split; [apply NoDup_keys|apply elem_of_keys].
Qed.

(** C9: [traverse] and [readdir] leave the object as it was: the mapping
    and the attributes [overwrite], [include_arcname] and [pathmaker] after
    the call are those before it. *)
Theorem read_side_leaves_state (self : DefaultMapper) (path : string) :
  (traverse path self).1.2 = self ∧ (readdir path self).1.2 = self.
Proof. by rewrite readdir_eq, traverse_eq. Qed.

(** C10: when [mkdir] raises, the exception is the [ValueError] of a
    fragment that exists as a file and the object is exactly as before the
    call, so no directory created on the way persists.  The reason is the
    second part: from a directory that was just created the loop cannot
    raise any more. *)
Theorem mkdir_raise_leaves_mapping :
  (∀ (self : DefaultMapper) (path_fragments : list string) (e : Exn)
     (self' : DefaultMapper) (l : list LogRecord),
     mkdir path_fragments self = (Raise e, self', l) →
     self' = self ∧ mapping self' = mapping self ∧
     ∃ k frag a f s,
       path_fragments !! k = Some frag ∧
       deref (Dir (mapping self)) (take (S k) path_fragments)
       = Some (File a f s) ∧
       e = ValueError (mkdir_message path_fragments k frag)) ∧
  (∀ (path_fragments rest : list string) (c : nat) (current : Cursor)
     (self : DefaultMapper),
     deref (Dir (mapping self)) current = Some (Dir ∅) →
     ∃ self', mkdir_loop path_fragments c rest current self
              = (Return (current ++ rest), self', [])).
Proof.
  split.
  - intros self path_fragments e self' l Hrun.
    destruct (mkdir_loop_raise path_fragments path_fragments 0 [] self
                e self' l eq_refl Hrun)
      as (-> & _ & k & frag & a & f & s & Hk & Hfile & ->).
    split_and!; [done..|]. by exists k, frag, a, f, s.
  - intros path_fragments rest c current self Hcur.
    destruct (mkdir_loop_from_empty path_fragments rest c current self Hcur)
      as (self' & Hrun & _).
    by exists self'.
Qed.

Lemma mkdir_raise_leaves_mapping_witness :
  mkdir ["notdir"; "2"; "3"] blocked_mapper
  = (Raise (ValueError
              "cannot create directory `notdir` at `/`: file entry exists."),
     blocked_mapper, []) ∧
  mapping blocked_mapper = {[ "notdir" := File "somezip.zip" "afile" 1 ]}.
Proof.
  assert (mkdir ["notdir"; "2"; "3"] blocked_mapper
          = (Raise (ValueError
               "cannot create directory `notdir` at `/`: file entry exists."),
             blocked_mapper, [])) as Hrun by (vm_compute; reflexivity).
  split; [exact Hrun|].
  exact (proj1 (proj2 (proj1 mkdir_raise_leaves_mapping _ _ _ _ _ Hrun))).
Defined.

(** ** Loading *)

(** C2: when opening the archive fails, whatever the failure,
    [load_archive] returns [False] without raising, logs one record and
    leaves the object, hence the mapping, unchanged; when the archive opens
    it returns [True]. *)
Theorem load_archive_reports (ZipFile : ZipFiles) (archive_path : string)
  (self : DefaultMapper) :
  match ZipFile archive_path with
  | Raise e =>
      load_archive ZipFile archive_path self
      = (Return false, self, [failure_record archive_path e])
  | Return infolist =>
      ∃ self' l,
        load_archive ZipFile archive_path self = (Return true, self', l)
  end.
Proof.
  destruct (ZipFile archive_path) as [infolist|e] eqn:Hz.
  - destruct (load_archive_success _ _ _ self Hz) as (self' & l & _ & ->).
    eauto.
  - by apply load_archive_failure.
Qed.

Lemma load_entry_rejected archive_path info self k a f s :
  deref (Dir (mapping self)) (take k (entry_frags self archive_path info))
  = Some (File a f s) →
  ∃ msg, load_entry archive_path info self
         = (Return tt, self, [could_not_be_created info msg]).
Proof.
  intros Hfile.
  destruct (mkdir_blocked _ _ _ _ _ _ Hfile) as [msg Hraise].
  destruct (load_entry_cases archive_path info self)
    as [(msg' & _ & ->)|(self1 & Hm & _)]; [eauto|].
  rewrite Hraise in Hm. discriminate.
Qed.

(** C3: an entry one of whose directory fragments exists in the tree as a
    file is rejected: the loop body returns normally with the object
    unchanged and one warning logged, and [_load_infolist] goes on with the
    remaining entries from that same object; no exception escapes.  When
    the tree holds only the file leaf [demo] and every entry lies under
    [demo/], the whole load leaves the object as it was, with one warning
    per entry. *)
Theorem conflicting_entries_rejected :
  (∀ (self : DefaultMapper) (archive_path : string) (info : ZipInfo)
     (rest : list ZipInfo) (k : nat) (a f : string) (s : Z),
     deref (Dir (mapping self)) (take k (entry_frags self archive_path info))
     = Some (File a f s) →
     ∃ msg self' l,
       load_entry archive_path info self
       = (Return tt, self, [could_not_be_created info msg]) ∧
       _load_infolist archive_path rest self = (Return tt, self', l) ∧
       _load_infolist archive_path (info :: rest) self
       = (Return tt, self', could_not_be_created info msg :: l)) ∧
  (∀ (self : DefaultMapper) (archive_path : string)
     (infolist : list ZipInfo) (leaf : Node),
     mapping self = {[ "demo" := leaf ]} →
     (∃ a f s, leaf = File a f s) →
     (∀ info, info ∈ infolist →
              head (entry_frags self archive_path info) = Some "demo") →
     ∃ self' l,
       _load_infolist archive_path infolist self = (Return tt, self', l) ∧
       self' = self ∧
       mapping self' = {[ "demo" := leaf ]} ∧
       length l = length infolist ∧
       (∀ r, r ∈ l → r.1 = WARNING)).
Proof.
  split.
  - intros self archive_path info rest k a f s Hfile.
    destruct (load_entry_rejected _ _ _ _ _ _ _ Hfile) as [msg Hbody].
    destruct (_load_infolist_total archive_path rest self)
      as (self' & l & Hrest & _).
    exists msg, self', l. split_and!; [done..|].
    by rewrite _load_infolist_cons, Hbody, Hrest.
  - intros self archive_path infolist leaf Hmap (a & f & s & ->) Hunder.
    exists self.
    induction infolist as [|info rest IH].
    + exists []. split_and!; try done. intros r Hr. by apply elem_of_nil in Hr.
    + destruct IH as (l & Hrest & _ & _ & Hlen & Hwarn).
      { intros info' Hin. apply Hunder. by right. }
      assert (deref (Dir (mapping self))
                (take 1 (entry_frags self archive_path info))
              = Some (File a f s)) as Hfile.
      { specialize (Hunder info ltac:(left)).
        destruct (entry_frags self archive_path info) as [|frag frags];
          [discriminate|].
        injection Hunder as ->. rewrite Hmap. cbn.
        by rewrite lookup_singleton_eq. }
      destruct (load_entry_rejected _ _ _ _ _ _ _ Hfile) as [msg Hbody].
      exists (could_not_be_created info msg :: l).
      rewrite _load_infolist_cons, Hbody, Hrest.
      split_and!; [done..|by cbn; rewrite Hlen|].
      intros r [->|Hr]%elem_of_cons; [done|by apply Hwarn].
Qed.

Lemma conflicting_entries_rejected_witness :
  (deref (Dir (mapping demo_leaf_mapper))
     (take 1 (entry_frags demo_leaf_mapper "demo2.zip"
                (zipinfo "demo/file4" 33)))
   = Some (File "somezip.zip" "notadir" 0) ∧
   ∃ msg self' l,
     load_entry "demo2.zip" (zipinfo "demo/file4" 33) demo_leaf_mapper
     = (Return tt, demo_leaf_mapper,
        [could_not_be_created (zipinfo "demo/file4" 33) msg]) ∧
     _load_infolist "demo2.zip" [] demo_leaf_mapper = (Return tt, self', l) ∧
     _load_infolist "demo2.zip" [zipinfo "demo/file4" 33] demo_leaf_mapper
     = (Return tt, self',
        could_not_be_created (zipinfo "demo/file4" 33) msg :: l)) ∧
  ∃ self' l,
    _load_infolist "demo2.zip" demo2 demo_leaf_mapper = (Return tt, self', l) ∧
    self' = demo_leaf_mapper ∧
    mapping self' = {[ "demo" := File "somezip.zip" "notadir" 0 ]} ∧
    length l = length demo2 ∧
    (∀ r, r ∈ l → r.1 = WARNING).
Proof.
  split; [split; [vm_compute; reflexivity|]|].
  - apply (proj1 conflicting_entries_rejected demo_leaf_mapper "demo2.zip"
             (zipinfo "demo/file4" 33) [] 1%nat "somezip.zip" "notadir" 0).
    vm_compute; reflexivity.
  - apply (proj2 conflicting_entries_rejected demo_leaf_mapper "demo2.zip"
             demo2 (File "somezip.zip" "notadir" 0)).
    + reflexivity.
    + by exists "somezip.zip", "notadir", 0.
    + intros info Hin. unfold demo2 in Hin.
      repeat (apply elem_of_cons in Hin as [->|Hin];
              [vm_compute; reflexivity|]).
      by apply elem_of_nil in Hin.
Defined.

Lemma truthy_Some leaf : leaf ≠ "" → truthy (Some leaf) = true.
Proof.
  intros Hne. unfold truthy.
  destruct (String.eqb_spec leaf ""); [done|done].
Qed.

(** Without [overwrite], an entry whose leaf name is taken is skipped. *)
Lemma load_entry_skipped archive_path info self leaf n :
  overwrite self = false →
  entry_leaf self archive_path info = Some leaf →
  leaf ≠ "" →
  deref (Dir (mapping self)) (entry_frags self archive_path info ++ [leaf])
  = Some n →
  load_entry archive_path info self
  = (Return tt, self, [already_exists info]).
Proof.
  intros Hov Hleaf Hne Hn.
  destruct (deref_app_Some _ _ _ _ Hn) as (y & Hy & Hchild).
  apply deref_cons_Some in Hchild as (d & child & -> & Hk & _).
  assert (mkdir (entry_frags self archive_path info) self
          = (Return (entry_frags self archive_path info), self, []))
    as Hmk by (apply mkdir_existing; by rewrite Hy).
  destruct (load_entry_cases archive_path info self)
    as [(msg & Hm & _)|(self1 & Hm & _ & _ & ->)];
    rewrite Hmk in Hm; [discriminate|].
  injection Hm as <-.
  rewrite Hleaf, (truthy_Some _ Hne), Hov. simpl.
  by rewrite (deref_snoc_has_key _ _ _ _ Hn).
Qed.

(** C1: with [overwrite] off, an entry that resolves to the directory and
    leaf name of an existing file leaf is skipped: the loop body leaves the
    object unchanged and logs that the name already exists.  Hence over any
    sequence of [load_archive] calls a file leaf, once in the tree at some
    path, stays bound to the same archive triple at that path. *)
Theorem first_claim_kept :
  (∀ (self : DefaultMapper) (archive_path : string) (info : ZipInfo)
     (leaf a f : string) (s : Z),
     overwrite self = false →
     entry_leaf self archive_path info = Some leaf →
     leaf ≠ "" →
     deref (Dir (mapping self))
       (entry_frags self archive_path info ++ [leaf]) = Some (File a f s) →
     load_entry archive_path info self
     = (Return tt, self, [already_exists info])) ∧
  (∀ (self : DefaultMapper) (ZipFile : ZipFiles) (paths : list string)
     (p : list string) (a f : string) (s : Z),
     overwrite self = false →
     deref (Dir (mapping self)) p = Some (File a f s) →
     ∃ oks self' l,
       load_archives ZipFile paths self = (Return oks, self', l) ∧
       deref (Dir (mapping self')) p = Some (File a f s)).
Proof.
  split.
  - intros self archive_path info leaf a f s Hov Hleaf Hne Hfile.
    by eapply load_entry_skipped.
  - intros self ZipFile paths p a f s Hov Hfile.
    destruct (load_archives_total ZipFile paths self)
      as (oks & self' & l & Hrun & _ & Hg).
    destruct (Hg Hov) as (_ & _ & _ & Hkeep).
    destruct (Hkeep p _ Hfile) as (n' & Hn' & Hpres). simpl in Hpres.
    subst n'. eauto.
Qed.

Lemma first_claim_kept_witness :
  (overwrite (loaded "demo3.zip") = false ∧
   entry_leaf (loaded "demo3.zip") "demo4.zip" (zipinfo "demo/dir1/file1" 26)
   = Some "file1" ∧
   deref (Dir (mapping (loaded "demo3.zip"))) ["demo"; "dir1"; "file1"]
   = Some (File "demo3.zip" "demo/dir1/file1" 33)) ∧
  load_entry "demo4.zip" (zipinfo "demo/dir1/file1" 26) (loaded "demo3.zip")
  = (Return tt, loaded "demo3.zip",
     [already_exists (zipinfo "demo/dir1/file1" 26)]) ∧
  ∃ oks self' l,
    load_archives test_archives ["demo4.zip"] (loaded "demo3.zip")
    = (Return oks, self', l) ∧
    deref (Dir (mapping self')) ["demo"; "dir1"; "file1"]
    = Some (File "demo3.zip" "demo/dir1/file1" 33).
Proof.
  split; [split_and!; vm_compute; reflexivity|]. split.
  - apply (proj1 first_claim_kept (loaded "demo3.zip") "demo4.zip"
             (zipinfo "demo/dir1/file1" 26) "file1"
             "demo3.zip" "demo/dir1/file1" 33).
    + vm_compute; reflexivity.
    + vm_compute; reflexivity.
    + discriminate.
    + vm_compute; reflexivity.
  - apply (proj2 first_claim_kept (loaded "demo3.zip") test_archives
             ["demo4.zip"] ["demo"; "dir1"; "file1"]
             "demo3.zip" "demo/dir1/file1" 33).
    + vm_compute; reflexivity.
    + vm_compute; reflexivity.
Defined.

(** ** Unloading *)

Lemma registry_unload_names archive_id names : ∀ e,
  registry (foldl (unload_name archive_id) e names) = registry e.
Proof.
  induction names as [|name names IH]; intros e; simpl; [done|].
  by rewrite IH.
Qed.

(** C6: [unload] of an archive identifier that is not in the registry fails
    with the "not loaded" outcome and leaves the engine exactly as it was;
    hence after a successful [unload] a second one of the same identifier
    fails with [NotLoaded]. *)
Theorem unload_not_loaded :
  (∀ (e : Engine) (archive_id : string),
     registry e !! archive_id = None →
     unload archive_id e = (NotLoaded, e)) ∧
  (∀ (e e' : Engine) (archive_id : string),
     unload archive_id e = (Unloaded, e') →
     unload archive_id e' = (NotLoaded, e')).
Proof.
  assert (∀ e archive_id, registry e !! archive_id = None →
                          unload archive_id e = (NotLoaded, e)) as Habsent.
  { intros e archive_id Hnone. unfold unload. by rewrite Hnone. }
  split; [done|].
  intros e e' archive_id Hrun. apply Habsent.
  unfold unload in Hrun.
  destruct (registry e !! archive_id) as [names|]; [|discriminate].
  injection Hrun as <-. cbn. apply lookup_delete_eq.
Qed.

Lemma unload_not_loaded_witness :
  (registry (new_engine default_pathmaker false false) !! "demo1.zip" = None ∧
   unload "demo1.zip" engine_demo1 = (Unloaded, engine_unloaded)) ∧
  unload "demo1.zip" (new_engine default_pathmaker false false)
  = (NotLoaded, new_engine default_pathmaker false false) ∧
  unload "demo1.zip" engine_unloaded = (NotLoaded, engine_unloaded).
Proof.
  split; [split; vm_compute; reflexivity|]. split.
  - apply (proj1 unload_not_loaded). vm_compute; reflexivity.
  - apply (proj2 unload_not_loaded engine_demo1 engine_unloaded "demo1.zip").
    vm_compute; reflexivity.
Defined.

(** [test_unload_infolist_simple] on the engine of the spec. *)
Example unload_simple :
  mapping (tree engine_demo1)
  = {[ "file1" := File "demo1.zip" "file1" 33;
       "file2" := File "demo1.zip" "file2" 33;
       "file3" := File "demo1.zip" "file3" 33;
       "file4" := File "demo1.zip" "file4" 33;
       "file5" := File "demo1.zip" "file5" 33;
       "file6" := File "demo1.zip" "file6" 33 ]} ∧
  registry engine_demo1
  = {[ "demo1.zip" :=
         ["file1"; "file2"; "file3"; "file4"; "file5"; "file6"] ]} ∧
  mapping (tree engine_unloaded) = ∅ ∧
  registry engine_unloaded = ∅ ∧
  ledger engine_unloaded = ∅.
Proof. split_and!; vm_compute; reflexivity. Qed.

(** Scenario C of the spec on the engine of the spec: [demo3.zip] keeps
    [demo/dir1/file1] against [demo4.zip], and unloading [demo3.zip]
    deletes the leaf without restoring the other contributor. *)
Example unload_scenario_C :
  deref (Dir (mapping (tree engine_demo34))) ["demo"; "dir1"; "file1"]
  = Some (File "demo3.zip" "demo/dir1/file1" 33) ∧
  ledger engine_demo34 !! "demo/dir1/file1"
  = Some ["demo3.zip"; "demo4.zip"] ∧
  deref (Dir (mapping (tree (unload "demo3.zip" engine_demo34).2)))
    ["demo"; "dir1"; "file1"] = None ∧
  ledger (unload "demo3.zip" engine_demo34).2 !! "demo/dir1/file1"
  = Some ["demo4.zip"] ∧
  deref (Dir (mapping (tree (unload "demo3.zip" engine_demo34).2)))
    ["demo"; "dir1"; "file5"]
  = Some (File "demo4.zip" "demo/dir1/file5" 26).
Proof. split_and!; vm_compute; reflexivity. Qed.

(** ** Node kinds across loads *)

(** Writing a file tuple anywhere leaves a file at, or above, every path
    that held a file. *)
Lemma store_file_keeps_file cur key va vf vs : ∀ d q a f s,
  deref (Dir d) q = Some (File a f s) →
  ∃ j a' f' s',
    deref (Dir (store d cur key (File va vf vs))) (take j q)
    = Some (File a' f' s').
Proof.
  induction cur as [|k0 cur IH]; intros d q a f s Hq.
  - destruct q as [|k q]; [discriminate|].
    apply deref_cons_Some in Hq as (d' & child & [= <-] & Hk & Hchild).
    destruct (decide (key = k)) as [->|Hne].
    + exists 1%nat, va, vf, vs. cbn. by rewrite lookup_insert_eq.
    + exists (length (k :: q)), a, f, s. rewrite firstn_all. cbn.
      by rewrite lookup_insert_ne, Hk.
  - cbn [store].
    destruct (d !! k0) as [[a0 f0 s0|sub]|] eqn:Hk0;
      try (exists (length q), a, f, s; by rewrite firstn_all).
    destruct q as [|k q]; [discriminate|].
    apply deref_cons_Some in Hq as (d' & child & [= <-] & Hk & Hchild).
    destruct (decide (k0 = k)) as [->|Hne].
    + rewrite Hk0 in Hk. injection Hk as <-.
      destruct (IH sub q a f s Hchild) as (j & a' & f' & s' & Hj).
      exists (S j), a', f', s'. cbn. by rewrite lookup_insert_eq.
    + exists (length (k :: q)), a, f, s. rewrite firstn_all. cbn.
      by rewrite lookup_insert_ne, Hk.
Qed.

Lemma file_above_store_file m cur key va vf vs p :
  file_above m p → file_above (store m cur key (File va vf vs)) p.
Proof.
  intros (k & a & f & s & Hk).
  destruct (store_file_keeps_file cur key va vf vs m _ a f s Hk)
    as (j & a' & f' & s' & Hj).
  rewrite take_take in Hj. by exists (j `min` k)%nat, a', f', s'.
Qed.

Lemma file_above_grows self self' p :
  grows self self' →
  file_above (mapping self) p → file_above (mapping self') p.
Proof.
  intros (_ & _ & _ & Hkeep) (k & a & f & s & Hk).
  destruct (Hkeep _ _ Hk) as (n' & Hn' & Hpres). simpl in Hpres. subst n'.
  by exists k, a, f, s.
Qed.

Lemma file_above_not_dict m p :
  file_above m p → is_dict (deref (Dir m) p) = false.
Proof.
  intros (k & a & f & s & Hk).
  rewrite <- (take_drop k p), deref_app, Hk. simpl.
  by destruct (drop k p).
Qed.

Lemma load_entry_file_above archive_path info self p :
  file_above (mapping self) p →
  file_above (mapping (load_entry archive_path info self).1.2) p.
Proof.
  intros Hp.
  destruct (load_entry_cases archive_path info self)
    as [(msg & _ & ->)|(self1 & _ & Hg & _ & ->)]; [done|].
  pose proof (file_above_grows _ _ _ Hg Hp) as Hp1.
  destruct (negb (truthy _)); [done|].
  destruct (_ && _); [done|].
  by apply file_above_store_file.
Qed.

Lemma _load_infolist_file_above archive_path infolist p : ∀ self,
  file_above (mapping self) p →
  file_above (mapping (_load_infolist archive_path infolist self).1.2) p.
Proof.
  induction infolist as [|info rest IH]; intros self Hp; [done|].
  rewrite _load_infolist_cons.
  pose proof (load_entry_file_above archive_path info self p Hp) as Hp1.
  destruct (load_entry archive_path info self) as [[r1 self1] l1].
  specialize (IH self1 Hp1).
  by destruct (_load_infolist archive_path rest self1) as [[r2 self2] l2].
Qed.

Lemma load_archive_file_above ZipFile archive_path self p :
  file_above (mapping self) p →
  file_above (mapping (load_archive ZipFile archive_path self).1.2) p.
Proof.
  intros Hp. destruct (ZipFile archive_path) as [infolist|e] eqn:Hz.
  - destruct (load_archive_success _ _ _ self Hz) as (self' & l & Hrun & ->).
    pose proof (_load_infolist_file_above archive_path infolist p self Hp)
      as Hp'.
    by rewrite Hrun in Hp'.
  - by rewrite (load_archive_failure _ _ _ self Hz).
Qed.

(** Under every configuration a path that holds a file never comes to hold
    a directory, whatever is loaded afterwards. *)
Lemma file_never_becomes_directory ZipFile paths : ∀ self p a f s,
  deref (Dir (mapping self)) p = Some (File a f s) →
  is_dict (deref (Dir (mapping (load_archives ZipFile paths self).1.2)) p)
  = false.
Proof.
  assert (∀ self p, file_above (mapping self) p →
            file_above (mapping (load_archives ZipFile paths self).1.2) p)
    as Hall.
  { induction paths as [|q qs IH]; intros self p Hp; [done|].
    cbn [load_archives]. unfold bind, ret.
    pose proof (load_archive_file_above ZipFile q self p Hp) as Hp1.
    destruct (load_archive_total ZipFile q self) as (ok & self1 & l1 & Hq & _).
    rewrite Hq in Hp1 |- *. specialize (IH self1 p Hp1).
    destruct (load_archives_total ZipFile qs self1)
      as (oks & self2 & l2 & Hqs & _).
    by rewrite Hqs in IH |- *. }
  intros self p a f s Hp. apply file_above_not_dict, Hall.
  exists (length p), a, f, s. by rewrite firstn_all.
Qed.

(** With [overwrite] off no node changes kind: a file stays the same
    tuple and a directory stays a directory. *)
Lemma kinds_kept_without_overwrite ZipFile paths self p n :
  overwrite self = false →
  deref (Dir (mapping self)) p = Some n →
  ∃ n', deref (Dir (mapping (load_archives ZipFile paths self).1.2)) p
        = Some n' ∧ preserved n n'.
Proof.
  intros Hov Hp.
  destruct (load_archives_total ZipFile paths self)
    as (oks & self' & l & -> & _ & Hg).
  destruct (Hg Hov) as (_ & _ & _ & Hkeep). by apply Hkeep.
Qed.

(** ** Where the code departs from the specification *)

(** C4: with [overwrite] on, loading an archive whose entry is the file
    [demo] into a tree where [demo] is a directory replaces the directory,
    and the six leaves under it, by a file leaf: the node changes kind. *)
Theorem overwrite_replaces_directory :
  overwrite overwriting = true ∧
  deref (Dir (mapping overwriting)) ["demo"]
  = Some (Dir {[ "file1" := File "demo2.zip" "demo/file1" 33;
                 "file2" := File "demo2.zip" "demo/file2" 33;
                 "file3" := File "demo2.zip" "demo/file3" 33;
                 "file4" := File "demo2.zip" "demo/file4" 33;
                 "file5" := File "demo2.zip" "demo/file5" 33;
                 "file6" := File "demo2.zip" "demo/file6" 33 ]}) ∧
  load_archive test_archives "conflict.zip" overwriting
  = (Return true,
     with_mapping overwriting {[ "demo" := File "conflict.zip" "demo" 0 ]},
     [(INFO, "loaded `conflict.zip`")]).
Proof. split_and!; vm_compute; reflexivity. Qed.

(** C5: the object has no contributed-names list and no ledger: a load
    can change nothing but the mapping, and the load of [demo2.zip] into
    the tree that holds the file leaf [demo], where every entry is
    rejected, leaves the object exactly as it was before the call. *)
Theorem load_keeps_no_record :
  (∀ (self : DefaultMapper) (archive_path : string)
     (infolist : list ZipInfo),
     ∃ self' l,
       _load_infolist archive_path infolist self = (Return tt, self', l) ∧
       self' = with_mapping self (mapping self')) ∧
  (_load_infolist "demo2.zip" demo2 (loaded "conflict.zip")).1
  = (Return tt, loaded "conflict.zip").
Proof.
  split.
  - intros self archive_path infolist.
    destruct (_load_infolist_total archive_path infolist self)
      as (self' & l & Hrun & Hi & Ho & Hp & _).
    exists self', l. split; [done|].
    destruct self'. unfold with_mapping. cbn in *. congruence.
  - vm_compute; reflexivity.
Qed.

(* ================================================================= *)
(** * Further properties of the mapper *)

(** ** What [mkdir] returns and what it leaves alone *)

Lemma has_key_false_snoc n p k :
  has_key (deref n p) k = false → deref n (p ++ [k]) = None.
Proof.
  rewrite deref_app.
  destruct (deref n p) as [[a f s|d]|]; simpl; try done.
  intros Hk%bool_decide_eq_false.
  destruct (d !! k) eqn:E; [|done]. destruct Hk. eauto.
Qed.

Lemma deref_None_app n p q : deref n p = None → deref n (p ++ q) = None.
Proof. intros H. by rewrite deref_app, H. Qed.

Lemma deref_empty_file q a f s : deref (Dir ∅) q ≠ Some (File a f s).
Proof. destruct q as [|k q]; simpl; [done|]. by rewrite lookup_empty. Qed.

(** A file found after a write was there before or lies in the value
    written. *)
Lemma store_file_origin cur key v : ∀ d p a f s,
  deref (Dir (store d cur key v)) p = Some (File a f s) →
  deref (Dir d) p = Some (File a f s) ∨ ∃ q, deref v q = Some (File a f s).
Proof.
  induction cur as [|k0 cur IH]; intros d p a f s Hp.
  - destruct p as [|k p]; [discriminate|]. cbn in Hp |- *.
    destruct (decide (key = k)) as [->|Hne].
    + rewrite lookup_insert_eq in Hp. eauto.
    + rewrite lookup_insert_ne in Hp by done. by left.
  - cbn [store] in Hp.
    destruct (d !! k0) as [[a0 f0 s0|sub]|] eqn:Hk0; try by left.
    destruct p as [|k p]; [discriminate|]. cbn in Hp |- *.
    destruct (decide (k0 = k)) as [->|Hne].
    + rewrite lookup_insert_eq in Hp. rewrite Hk0.
      by apply IH.
    + rewrite lookup_insert_ne in Hp by done. by left.
Qed.

Lemma store_empty_dir_no_file d cur key p a f s :
  deref (Dir (store d cur key (Dir ∅))) p = Some (File a f s) →
  deref (Dir d) p = Some (File a f s).
Proof.
  intros [H|[q H]]%store_file_origin; [done|].
  by apply deref_empty_file in H.
Qed.

(** From a directory that was just created: the loop ends at an empty
    directory and has added no file. *)
Lemma mkdir_loop_from_empty_exact pf rest : ∀ c cur self,
  deref (Dir (mapping self)) cur = Some (Dir ∅) →
  ∃ self',
    mkdir_loop pf c rest cur self = (Return (cur ++ rest), self', []) ∧
    deref (Dir (mapping self')) (cur ++ rest) = Some (Dir ∅) ∧
    ∀ p a f s, deref (Dir (mapping self')) p = Some (File a f s) →
               deref (Dir (mapping self)) p = Some (File a f s).
Proof.
  induction rest as [|frag rest IH]; intros c cur self Hcur.
  - exists self. rewrite app_nil_r. done.
  - rewrite mkdir_loop_cons, Hcur. cbn [has_key].
    rewrite lookup_empty, bool_decide_eq_false_2 by (by intros [? ?]).
    destruct (IH (S c) (cur ++ [frag])
                (with_mapping self (store (mapping self) cur frag (Dir ∅))))
      as (self' & Hrun & Hend & Hfiles).
    { cbn. by eapply deref_store_here. }
    exists self'. rewrite <- app_assoc in Hrun, Hend.
    split_and!; [done..|].
    intros p a f s Hp. apply Hfiles in Hp. cbn in Hp.
    by apply store_empty_dir_no_file in Hp.
Qed.

(** The loop of [mkdir] when it returns. *)
Lemma mkdir_loop_outcome pf rest : ∀ c cur self r self' l,
  is_dict (deref (Dir (mapping self)) cur) = true →
  mkdir_loop pf c rest cur self = (Return r, self', l) →
  r = cur ++ rest ∧ l = [] ∧ grows self self' ∧
  (∀ p a f s, deref (Dir (mapping self')) p = Some (File a f s) →
              deref (Dir (mapping self)) p = Some (File a f s)) ∧
  ((is_dict (deref (Dir (mapping self)) (cur ++ rest)) = true ∧ self' = self)
   ∨ (deref (Dir (mapping self)) (cur ++ rest) = None ∧
      deref (Dir (mapping self')) (cur ++ rest) = Some (Dir ∅))).
Proof.
  induction rest as [|frag rest IH]; intros c cur self r self' l Hcur Hrun.
  - injection Hrun as <- <- <-. rewrite app_nil_r.
    split_and!; [done|done|apply grows_refl|done|by left].
  - rewrite mkdir_loop_cons in Hrun.
    rewrite cons_middle, (assoc_L (++) cur [frag] rest).
    destruct (has_key _ frag) eqn:Hin.
    + destruct (is_dict (deref _ (cur ++ [frag]))) eqn:Hdir; [|discriminate].
      by apply (IH (S c) (cur ++ [frag]) self).
    + destruct (deref (Dir (mapping self)) cur) as [[a f s|sub]|] eqn:Hc;
        try discriminate.
      set (self1 := with_mapping self (store (mapping self) cur frag (Dir ∅)))
        in *.
      assert (deref (Dir (mapping self1)) (cur ++ [frag]) = Some (Dir ∅))
        as Hnew by (cbn; by eapply deref_store_here).
      destruct (mkdir_loop_from_empty_exact pf rest (S c) _ _ Hnew)
        as (self2 & Hrun2 & Hend & Hfiles).
      rewrite Hrun2 in Hrun. injection Hrun as <- <- <-.
      destruct (mkdir_loop_spec pf rest (S c) (cur ++ [frag]) self1)
        as [[msg Hraise]|(self3 & Hrun3 & Hgrow & _)].
      { by rewrite Hnew. }
      { rewrite Hrun2 in Hraise. discriminate. }
      rewrite Hrun2 in Hrun3. injection Hrun3 as <-.
      split_and!; [done|done| | |right].
      * eapply grows_trans; [|done]. apply grows_store_fresh.
        by rewrite Hc.
      * intros p a f s Hp. apply Hfiles in Hp.
        by apply store_empty_dir_no_file in Hp.
      * split; [|done]. apply deref_None_app, has_key_false_snoc.
        by rewrite Hc.
Qed.

(** X1: when [mkdir] returns, it returns the directory at the given
    fragments and has logged nothing; either that directory existed and the
    object is untouched, or the path was missing and the directory now
    there is empty. *)
Theorem mkdir_returns_directory (self : DefaultMapper)
  (path_fragments : list string) (r : Cursor) (self' : DefaultMapper)
  (l : list LogRecord) :
  mkdir path_fragments self = (Return r, self', l) →
  r = path_fragments ∧ l = [] ∧
  ((∃ d, deref (Dir (mapping self)) path_fragments = Some (Dir d) ∧
         self' = self)
   ∨ (deref (Dir (mapping self)) path_fragments = None ∧
      deref (Dir (mapping self')) path_fragments = Some (Dir ∅))).
Proof.
  intros Hrun.
  destruct (mkdir_loop_outcome _ _ 0 [] self r self' l eq_refl Hrun)
    as (-> & -> & _ & _ & Hcase).
  split_and!; [done..|].
  destruct Hcase as [[Hd ->]|[Hnone Hnew]]; [left|by right].
  cbn in Hd.
  destruct (deref _ path_fragments) as [[a f s|d]|]; try done. eauto.
Qed.

Lemma mkdir_returns_directory_witness :
  mkdir ["1"; "2"] (loaded "demo1.zip")
  = (Return ["1"; "2"],
     with_mapping (loaded "demo1.zip")
       (<["1" := Dir {[ "2" := Dir ∅ ]}]> (mapping (loaded "demo1.zip"))),
     []) ∧
  (["1"; "2"] = ["1"; "2"] ∧ @nil LogRecord = [] ∧
   ((∃ d, deref (Dir (mapping (loaded "demo1.zip"))) ["1"; "2"]
          = Some (Dir d) ∧
          with_mapping (loaded "demo1.zip")
            (<["1" := Dir {[ "2" := Dir ∅ ]}]> (mapping (loaded "demo1.zip")))
          = loaded "demo1.zip")
    ∨ (deref (Dir (mapping (loaded "demo1.zip"))) ["1"; "2"] = None ∧
       deref (Dir (<["1" := Dir {[ "2" := Dir ∅ ]}]>
                     (mapping (loaded "demo1.zip")))) ["1"; "2"]
       = Some (Dir ∅)))).
Proof.
  assert (mkdir ["1"; "2"] (loaded "demo1.zip")
          = (Return ["1"; "2"],
             with_mapping (loaded "demo1.zip")
               (<["1" := Dir {[ "2" := Dir ∅ ]}]>
                  (mapping (loaded "demo1.zip"))),
             [])) as Hrun by (vm_compute; reflexivity).
  split; [exact Hrun|].
  exact (mkdir_returns_directory _ _ _ _ _ Hrun).
Defined.

(** X2: [mkdir] raises exactly when a file lies on the path: some prefix
    of the fragments, possibly all of them, resolves to a file tuple.  In
    every other tree it returns. *)
Theorem mkdir_raises_iff_blocked (self : DefaultMapper)
  (path_fragments : list string) :
  (∃ e self' l, mkdir path_fragments self = (Raise e, self', l)) ↔
  file_above (mapping self) path_fragments.
Proof.
  split.
  - intros (e & self' & l & Hrun).
    destruct (mkdir_loop_raise _ _ 0 [] self e self' l eq_refl Hrun)
      as (_ & _ & k & frag & a & f & s & _ & Hfile & _).
    by exists (S k), a, f, s.
  - intros (k & a & f & s & Hk).
    destruct (mkdir_blocked _ _ _ _ _ _ Hk) as [msg Hrun]. eauto.
Qed.

(** X3: [mkdir] is idempotent: after a call that returned, the same call
    returns the same directory and leaves the object as it is. *)
Theorem mkdir_twice (self : DefaultMapper) (path_fragments : list string)
  (r : Cursor) (self' : DefaultMapper) (l : list LogRecord) :
  mkdir path_fragments self = (Return r, self', l) →
  mkdir path_fragments self' = (Return r, self', []).
Proof.
  intros Hrun.
  destruct (mkdir_loop_outcome _ _ 0 [] self r self' l eq_refl Hrun)
    as (-> & _ & _ & _ & Hcase).
  cbn in Hcase |- *. apply mkdir_existing.
  destruct Hcase as [[Hd ->]|[_ Hnew]]; [done|by rewrite Hnew].
Qed.

Lemma mkdir_twice_witness :
  mkdir ["3"; "4"; "5"] (new_mapper default_pathmaker false false)
  = (Return ["3"; "4"; "5"],
     with_mapping (new_mapper default_pathmaker false false)
       {[ "3" := Dir {[ "4" := Dir {[ "5" := Dir ∅ ]} ]} ]},
     []) ∧
  mkdir ["3"; "4"; "5"]
    (with_mapping (new_mapper default_pathmaker false false)
       {[ "3" := Dir {[ "4" := Dir {[ "5" := Dir ∅ ]} ]} ]})
  = (Return ["3"; "4"; "5"],
     with_mapping (new_mapper default_pathmaker false false)
       {[ "3" := Dir {[ "4" := Dir {[ "5" := Dir ∅ ]} ]} ]},
     []).
Proof.
  assert (mkdir ["3"; "4"; "5"] (new_mapper default_pathmaker false false)
          = (Return ["3"; "4"; "5"],
             with_mapping (new_mapper default_pathmaker false false)
               {[ "3" := Dir {[ "4" := Dir {[ "5" := Dir ∅ ]} ]} ]},
             [])) as Hrun by (vm_compute; reflexivity).
  split; [exact Hrun|].
  exact (mkdir_twice _ _ _ _ _ Hrun).
Defined.

(** X4: [mkdir] touches no file and no existing directory: a path holds a
    file tuple after the call exactly when it held that tuple before, every
    directory is still a directory, and the attributes [include_arcname],
    [overwrite] and [pathmaker] are those of before. *)
Theorem mkdir_keeps_files (self : DefaultMapper)
  (path_fragments : list string) (r : Cursor) (self' : DefaultMapper)
  (l : list LogRecord) :
  mkdir path_fragments self = (Return r, self', l) →
  (∀ p a f s, deref (Dir (mapping self')) p = Some (File a f s) ↔
              deref (Dir (mapping self)) p = Some (File a f s)) ∧
  (∀ p, is_dict (deref (Dir (mapping self)) p) = true →
        is_dict (deref (Dir (mapping self')) p) = true) ∧
  self' = with_mapping self (mapping self').
Proof.
  intros Hrun.
  destruct (mkdir_loop_outcome _ _ 0 [] self r self' l eq_refl Hrun)
    as (_ & _ & (Hi & Ho & Hpm & Hkeep) & Hfiles & _).
  split_and!.
  - intros p a f s. split; [apply Hfiles|].
    intros Hp. destruct (Hkeep _ _ Hp) as (n' & Hn' & Hpres).
    simpl in Hpres. by subst n'.
  - intros p Hp.
    destruct (deref (Dir (mapping self)) p) as [[a f s|d]|] eqn:E;
      try discriminate.
    destruct (Hkeep _ _ E) as (n' & -> & [d' ->]). done.
  - destruct self'. unfold with_mapping. cbn in *. congruence.
Qed.

Lemma mkdir_keeps_files_witness :
  mkdir ["1"; "2"] (loaded "demo1.zip")
  = (Return ["1"; "2"],
     with_mapping (loaded "demo1.zip")
       (<["1" := Dir {[ "2" := Dir ∅ ]}]> (mapping (loaded "demo1.zip"))),
     []) ∧
  (deref (Dir (<["1" := Dir {[ "2" := Dir ∅ ]}]>
                 (mapping (loaded "demo1.zip")))) ["file1"]
   = Some (File "demo1.zip" "file1" 33) ↔
   deref (Dir (mapping (loaded "demo1.zip"))) ["file1"]
   = Some (File "demo1.zip" "file1" 33)).
Proof.
  assert (mkdir ["1"; "2"] (loaded "demo1.zip")
          = (Return ["1"; "2"],
             with_mapping (loaded "demo1.zip")
               (<["1" := Dir {[ "2" := Dir ∅ ]}]>
                  (mapping (loaded "demo1.zip"))),
             [])) as Hrun by (vm_compute; reflexivity).
  split; [exact Hrun|].
  exact (proj1 (mkdir_keeps_files _ _ _ _ _ Hrun)
           ["file1"] "demo1.zip" "file1" 33).
Defined.

(** X5: after [mkdir] returned, [traverse] of the joined fragments finds
    the directory, provided no fragment contains a slash and the fragments
    are not the single empty name (for which the joined path is the empty
    path, that is the root). *)
Theorem mkdir_then_traverse (self : DefaultMapper)
  (path_fragments : list string) (r : Cursor) (self' : DefaultMapper)
  (l : list LogRecord) :
  mkdir path_fragments self = (Return r, self', l) →
  Forall (λ w, has_slash w = false) path_fragments →
  path_fragments ≠ [""] →
  ∃ d, traverse (join path_fragments) self'
       = (Return (Some (Dir d)), self', []) ∧
       deref (Dir (mapping self')) r = Some (Dir d).
Proof.
  intros Hrun Hall Hne.
  destruct (mkdir_loop_outcome _ _ 0 [] self r self' l eq_refl Hrun)
    as (-> & _ & _ & _ & Hcase).
  cbn [app] in Hcase |- *.
  assert (is_dict (deref (Dir (mapping self')) path_fragments) = true) as Hd.
  { destruct Hcase as [[Hd ->]|[_ Hnew]]; [done|by rewrite Hnew]. }
  destruct (deref (Dir (mapping self')) path_fragments) as [[a f s|d]|] eqn:E;
    try discriminate.
  exists d. split; [|done].
  by rewrite traverse_eq, path_fragments_of_join, E.
Qed.

Lemma mkdir_then_traverse_witness :
  (mkdir ["3"; "4"; "5"] (new_mapper default_pathmaker false false)
   = (Return ["3"; "4"; "5"],
      with_mapping (new_mapper default_pathmaker false false)
        {[ "3" := Dir {[ "4" := Dir {[ "5" := Dir ∅ ]} ]} ]},
      []) ∧
   Forall (λ w, has_slash w = false) ["3"; "4"; "5"] ∧
   ["3"; "4"; "5"] ≠ [""]) ∧
  ∃ d, traverse "3/4/5"
         (with_mapping (new_mapper default_pathmaker false false)
            {[ "3" := Dir {[ "4" := Dir {[ "5" := Dir ∅ ]} ]} ]})
       = (Return (Some (Dir d)),
          with_mapping (new_mapper default_pathmaker false false)
            {[ "3" := Dir {[ "4" := Dir {[ "5" := Dir ∅ ]} ]} ]}, []) ∧
       deref (Dir {[ "3" := Dir {[ "4" := Dir {[ "5" := Dir ∅ ]} ]} ]})
         ["3"; "4"; "5"] = Some (Dir d).
Proof.
  assert (mkdir ["3"; "4"; "5"] (new_mapper default_pathmaker false false)
          = (Return ["3"; "4"; "5"],
             with_mapping (new_mapper default_pathmaker false false)
               {[ "3" := Dir {[ "4" := Dir {[ "5" := Dir ∅ ]} ]} ]},
             [])) as Hrun by (vm_compute; reflexivity).
  assert (Forall (λ w, has_slash w = false) ["3"; "4"; "5"]) as Hall
    by (repeat constructor).
  assert (["3"; "4"; "5"] ≠ [""]) as Hne by discriminate.
  split; [done|].
  exact (mkdir_then_traverse _ _ _ _ _ Hrun Hall Hne).
Defined.

(** X6: below a path.  For a non-empty path [p], [traverse] of [p/q]
    continues from the node [traverse] finds at [p] with the fragments of
    [q]: below a directory it is the lookup of [q] in that directory (for a
    non-empty [q], what [traverse] of [q] finds in a mapper holding that
    directory as its tree), and below a file or a missing path it is
    [None]. *)
Theorem traverse_below (self : DefaultMapper) (p q : string) :
  p ≠ "" →
  (∀ d, traverse p self = (Return (Some (Dir d)), self, []) →
        traverse (p +:+ "/" +:+ q) self
        = (Return (traverse_loop (Dir d) (split q)), self, []) ∧
        (q ≠ "" →
         (traverse (p +:+ "/" +:+ q) self).1.1
         = (traverse q (with_mapping self d)).1.1)) ∧
  ((∀ d, traverse p self ≠ (Return (Some (Dir d)), self, [])) →
   traverse (p +:+ "/" +:+ q) self = (Return None, self, [])).
Proof.
  intros Hp.
  change (p +:+ "/" +:+ q) with (p +:+ String slash q).
  rewrite !traverse_eq, path_fragments_of_below, deref_app by done.
  split.
  - intros d [= Hd]. rewrite Hd. cbn [mbind option_bind].
    split; [by rewrite (traverse_loop_deref (Dir d) (split q))|].
    intros Hq. rewrite traverse_eq. by destruct q.
  - intros Hnot.
    destruct (deref (Dir (mapping self)) (path_fragments_of p))
      as [[a f s|d]|]; cbn [mbind option_bind].
    + pose proof (split_nonempty q). by destruct (split q).
    + by destruct (Hnot d).
    + done.
Qed.

Lemma traverse_below_witness :
  ("demo" ≠ "" ∧
   traverse "demo" demo_leaf_mapper
   ≠ (Return (Some (Dir ∅)), demo_leaf_mapper, [])) ∧
  traverse ("demo" +:+ "/" +:+ "file1") demo_leaf_mapper
  = (Return None, demo_leaf_mapper, []).
Proof.
  split; [split; [discriminate|vm_compute; discriminate]|].
  apply (proj2 (traverse_below demo_leaf_mapper "demo" "file1"
                  ltac:(discriminate))).
  intros d. vm_compute. discriminate.
Defined.

(** X7: [readdir] and [traverse] agree: a name without a slash is listed
    by [readdir] at a path exactly when [traverse] finds a node at the
    child path (at the root the child path is the name itself, which must
    then be non-empty). *)
Theorem readdir_lists_what_traverse_finds (self : DefaultMapper)
  (path name : string) :
  has_slash name = false →
  (path = "" → name ≠ "") →
  ∃ names,
    readdir path self = (Return names, self, []) ∧
    (name ∈ names ↔
     ∃ n, traverse (child_path path name) self = (Return (Some n), self, [])).
Proof.
  intros Hname Hroot. rewrite readdir_eq. eexists. split; [done|].
  rewrite traverse_eq, path_fragments_of_child, deref_app by done.
  destruct (deref (Dir (mapping self)) (path_fragments_of path))
    as [[a f s|d]|]; cbn.
  - split; [by intros ?%elem_of_nil|by intros [n [=]]].
  - rewrite elem_of_keys. split.
    + intros [n Hn]. exists n. by rewrite Hn.
    + intros [n Hn]. destruct (d !! name); [eauto|discriminate].
  - split; [by intros ?%elem_of_nil|by intros [n [=]]].
Qed.

Lemma readdir_lists_what_traverse_finds_witness :
  (has_slash "dir1" = false ∧ ("demo" = "" → "dir1" ≠ "")) ∧
  ∃ names,
    readdir "demo" (loaded "demo3.zip")
    = (Return names, loaded "demo3.zip", []) ∧
    ("dir1" ∈ names ↔
     ∃ n, traverse (child_path "demo" "dir1") (loaded "demo3.zip")
          = (Return (Some n), loaded "demo3.zip", [])).
Proof.
  split; [split; [reflexivity|discriminate]|].
  apply readdir_lists_what_traverse_finds; [reflexivity|discriminate].
Defined.

(** ** What a load writes *)

Lemma mkdir_raise_file_above frags self e self' l :
  mkdir frags self = (Raise e, self', l) → file_above (mapping self) frags.
Proof.
  intros Hrun.
  destruct (mkdir_loop_raise _ _ 0 [] self e self' l eq_refl Hrun)
    as (_ & _ & k & frag & a & f & s & _ & Hfile & _).
  by exists (S k), a, f, s.
Qed.

Lemma mkdir_return_outcome frags self self1 :
  mkdir frags self = (Return frags, self1, []) →
  grows self self1 ∧
  (∀ p a f s, deref (Dir (mapping self1)) p = Some (File a f s) →
              deref (Dir (mapping self)) p = Some (File a f s)) ∧
  ((is_dict (deref (Dir (mapping self)) frags) = true ∧ self1 = self)
   ∨ (deref (Dir (mapping self)) frags = None ∧
      deref (Dir (mapping self1)) frags = Some (Dir ∅))).
Proof.
  intros Hrun.
  by destruct (mkdir_loop_outcome _ _ 0 [] self _ self1 _ eq_refl Hrun)
    as (_ & _ & Hg & Hfiles & Hcase).
Qed.

Lemma deref_store_target d cur key v sub :
  deref (Dir d) cur = Some (Dir sub) →
  deref (Dir (store d cur key v)) cur = Some (Dir (<[key := v]> sub)).
Proof.
  revert d. induction cur as [|k cur IH]; intros d; simpl.
  - by intros [= ->].
  - destruct (d !! k) as [[a f s|sub']|] eqn:Hk; try discriminate.
    + destruct cur; discriminate.
    + intros H. rewrite lookup_insert_eq. by apply IH.
Qed.

(** The loop body when the directories can be made and the leaf name is
    usable: the tuple is written. *)
Lemma load_entry_written archive_path info self leaf :
  entry_leaf self archive_path info = Some leaf →
  leaf ≠ "" →
  ¬ file_above (mapping self) (entry_frags self archive_path info) →
  overwrite self = true ∨
  deref (Dir (mapping self)) (entry_frags self archive_path info ++ [leaf])
  = None →
  ∃ self',
    load_entry archive_path info self = (Return tt, self', []) ∧
    deref (Dir (mapping self')) (entry_frags self archive_path info ++ [leaf])
    = Some (File archive_path (filename info) (file_size info)).
Proof.
  intros Hleaf Hne Hfree Hok.
  destruct (load_entry_cases archive_path info self)
    as [(msg & Hm & _)|(self1 & Hm & _ & Hd & ->)].
  { destruct Hfree. by eapply mkdir_raise_file_above. }
  destruct (mkdir_return_outcome _ _ _ Hm) as (_ & _ & Hcase).
  rewrite Hleaf, (truthy_Some _ Hne). simpl.
  assert (has_key (deref (Dir (mapping self1))
                     (entry_frags self archive_path info)) leaf
          && negb (overwrite self) = false) as ->.
  { destruct Hok as [->|Hnone]; [apply andb_false_r|].
    apply andb_false_intro1.
    destruct Hcase as [[_ ->]|[_ ->]].
    - destruct (has_key _ leaf) eqn:Hin; [|done].
      apply has_key_deref_snoc in Hin as [n Hn]. congruence.
    - simpl. rewrite lookup_empty. apply bool_decide_eq_false_2.
      by intros [? ?]. }
  eexists. split; [done|].
  destruct (deref (Dir (mapping self1)) (entry_frags self archive_path info))
    as [[a f s|sub]|] eqn:E; try discriminate.
  unfold written. cbn. by eapply deref_store_here.
Qed.

(** X8: when no file lies on the entry's directory fragments, its file name
    is non-empty, and the leaf is free or [overwrite] is on, the loop body
    of [_load_infolist] returns without logging and leaves the tuple
    [(archive_path, info.filename, info.file_size)] at the leaf; the name
    stored is [info.filename] even when [include_arcname] prefixed the path.
    If moreover the fragments and the leaf are the ['/']-split of the
    entry's effective name, [traverse] of that name finds the tuple. *)
Theorem load_entry_writes (self : DefaultMapper) (archive_path : string)
  (info : ZipInfo) (leaf : string) :
  entry_leaf self archive_path info = Some leaf →
  leaf ≠ "" →
  ¬ file_above (mapping self) (entry_frags self archive_path info) →
  overwrite self = true ∨
  deref (Dir (mapping self)) (entry_frags self archive_path info ++ [leaf])
  = None →
  ∃ self',
    load_entry archive_path info self = (Return tt, self', []) ∧
    deref (Dir (mapping self')) (entry_frags self archive_path info ++ [leaf])
    = Some (File archive_path (filename info) (file_size info)) ∧
    (split (ifilename_of self archive_path info)
     = entry_frags self archive_path info ++ [leaf] →
     traverse (ifilename_of self archive_path info) self'
     = (Return (Some (File archive_path (filename info) (file_size info))),
        self', [])).
Proof.
  intros Hleaf Hne Hfree Hok.
  destruct (load_entry_written _ _ _ _ Hleaf Hne Hfree Hok)
    as (self' & Hrun & Hfile).
  exists self'. split_and!; [done..|].
  intros Hsplit. rewrite traverse_eq.
  assert (path_fragments_of (ifilename_of self archive_path info)
          = split (ifilename_of self archive_path info)) as ->.
  { destruct (ifilename_of self archive_path info) eqn:E; [|done].
    simpl in Hsplit.
    destruct (entry_frags self archive_path info) as [|? [|? ?]];
      simpl in Hsplit; [|discriminate..].
    injection Hsplit as Hleaf'. by destruct Hne. }
  by rewrite Hsplit, Hfile.
Qed.

Lemma load_entry_writes_witness :
  (entry_leaf arcname_mapper "/tmp/demo2.zip" (zipinfo "demo/file1" 33)
   = Some "file1" ∧
   "file1" ≠ "" ∧
   ¬ file_above (mapping arcname_mapper)
       (entry_frags arcname_mapper "/tmp/demo2.zip" (zipinfo "demo/file1" 33)) ∧
   deref (Dir (mapping arcname_mapper))
     (entry_frags arcname_mapper "/tmp/demo2.zip" (zipinfo "demo/file1" 33)
      ++ ["file1"]) = None ∧
   ifilename_of arcname_mapper "/tmp/demo2.zip" (zipinfo "demo/file1" 33)
   = "demo2.zip/demo/file1") ∧
  ∃ self',
    load_entry "/tmp/demo2.zip" (zipinfo "demo/file1" 33) arcname_mapper
    = (Return tt, self', []) ∧
    deref (Dir (mapping self'))
      (entry_frags arcname_mapper "/tmp/demo2.zip" (zipinfo "demo/file1" 33)
       ++ ["file1"])
    = Some (File "/tmp/demo2.zip"
              (filename (zipinfo "demo/file1" 33))
              (file_size (zipinfo "demo/file1" 33))) ∧
    (split (ifilename_of arcname_mapper "/tmp/demo2.zip"
              (zipinfo "demo/file1" 33))
     = entry_frags arcname_mapper "/tmp/demo2.zip" (zipinfo "demo/file1" 33)
       ++ ["file1"] →
     traverse (ifilename_of arcname_mapper "/tmp/demo2.zip"
                 (zipinfo "demo/file1" 33)) self'
     = (Return (Some (File "/tmp/demo2.zip"
                        (filename (zipinfo "demo/file1" 33))
                        (file_size (zipinfo "demo/file1" 33)))),
        self', [])).
Proof.
  assert (¬ file_above (mapping arcname_mapper)
            (entry_frags arcname_mapper "/tmp/demo2.zip"
               (zipinfo "demo/file1" 33))) as Hfree.
  { intros (k & a & f & s & H). by apply deref_empty_file in H. }
  split.
  - split_and!; [vm_compute; reflexivity|discriminate|exact Hfree
                 |vm_compute; reflexivity|vm_compute; reflexivity].
  - apply (load_entry_writes arcname_mapper "/tmp/demo2.zip"
             (zipinfo "demo/file1" 33) "file1").
    + vm_compute; reflexivity.
    + discriminate.
    + exact Hfree.
    + right. vm_compute; reflexivity.
Defined.

(** ** Where the files of the tree come from *)

Lemma load_entry_origin archive_path info self p a n s :
  deref (Dir (mapping (load_entry archive_path info self).1.2)) p
  = Some (File a n s) →
  deref (Dir (mapping self)) p = Some (File a n s) ∨
  (a = archive_path ∧ n = filename info ∧ s = file_size info).
Proof.
  destruct (load_entry_cases archive_path info self)
    as [(msg & _ & ->)|(self1 & Hm & _ & _ & ->)]; [by left|].
  destruct (mkdir_return_outcome _ _ _ Hm) as (_ & Hfiles & _).
  destruct (negb (truthy _)); [intros H; left; by apply Hfiles|].
  destruct (_ && _); [intros H; left; by apply Hfiles|].
  unfold written. cbn.
  intros [H|[q H]]%store_file_origin; [left; by apply Hfiles|].
  right. pose proof (deref_file_nonempty _ _ _ _ _ H) as ->.
  simpl in H. by injection H as <- <- <-.
Qed.

Lemma _load_infolist_origin archive_path infolist p a n s : ∀ self,
  deref (Dir (mapping (_load_infolist archive_path infolist self).1.2)) p
  = Some (File a n s) →
  deref (Dir (mapping self)) p = Some (File a n s) ∨
  (a = archive_path ∧
   ∃ info, info ∈ infolist ∧ filename info = n ∧ file_size info = s).
Proof.
  induction infolist as [|info rest IH]; intros self; [by left|].
  rewrite _load_infolist_cons.
  pose proof (load_entry_origin archive_path info self p a n s) as Hfirst.
  destruct (load_entry archive_path info self) as [[r1 self1] l1].
  specialize (IH self1).
  destruct (_load_infolist archive_path rest self1) as [[r2 self2] l2].
  cbn in *. intros Hp.
  destruct (IH Hp) as [Hold|(-> & info' & Hin & Hn & Hs)].
  - destruct (Hfirst Hold) as [?|(-> & -> & ->)]; [by left|].
    right. split; [done|]. exists info. split_and!; [by left|done..].
  - right. split; [done|]. exists info'. split_and!; [by right|done..].
Qed.

Lemma load_archive_origin ZipFile archive_path self p a n s :
  deref (Dir (mapping (load_archive ZipFile archive_path self).1.2)) p
  = Some (File a n s) →
  deref (Dir (mapping self)) p = Some (File a n s) ∨
  (a = archive_path ∧
   ∃ infolist info, ZipFile archive_path = Return infolist ∧
                    info ∈ infolist ∧ filename info = n ∧ file_size info = s).
Proof.
  destruct (ZipFile archive_path) as [infolist|e] eqn:Hz.
  - destruct (load_archive_success _ _ _ self Hz) as (self' & l & Hrun & ->).
    pose proof (_load_infolist_origin archive_path infolist p a n s self)
      as Horigin.
    rewrite Hrun in Horigin. cbn in *. intros Hp.
    destruct (Horigin Hp) as [?|(-> & info & Hin & Hn & Hs)]; [by left|].
    right. split; [done|]. by exists infolist, info.
  - rewrite (load_archive_failure _ _ _ self Hz). by left.
Qed.

Lemma load_archives_origin ZipFile paths p a n s : ∀ self,
  deref (Dir (mapping (load_archives ZipFile paths self).1.2)) p
  = Some (File a n s) →
  deref (Dir (mapping self)) p = Some (File a n s) ∨
  (a ∈ paths ∧
   ∃ infolist info, ZipFile a = Return infolist ∧
                    info ∈ infolist ∧ filename info = n ∧ file_size info = s).
Proof.
  induction paths as [|q qs IH]; intros self; [by left|].
  cbn [load_archives]. unfold bind, ret.
  pose proof (load_archive_origin ZipFile q self p a n s) as Hfirst.
  destruct (load_archive_total ZipFile q self) as (ok & self1 & l1 & Hq & _).
  rewrite Hq in Hfirst |- *. specialize (IH self1).
  destruct (load_archives_total ZipFile qs self1)
    as (oks & self2 & l2 & Hqs & _).
  rewrite Hqs in IH |- *. cbn in *. intros Hp.
  destruct (IH Hp) as [Hold|[Hin Hrest]].
  - destruct (Hfirst Hold) as [?|[-> Hrest]]; [by left|].
    right. split; [by left|done].
  - right. split; [by right|done].
Qed.

(** X9: the mapper invents no file: whatever file tuple [traverse] finds
    after a sequence of [load_archive] calls was found at that path before
    them, or it names one of the archives loaded, a member that archive
    listed, and the size listed for that member. *)
Theorem files_come_from_archives (ZipFile : ZipFiles) (paths : list string)
  (self : DefaultMapper) (path a n : string) (s : Z) :
  (traverse path (load_archives ZipFile paths self).1.2).1.1
  = Return (Some (File a n s)) →
  (traverse path self).1.1 = Return (Some (File a n s)) ∨
  (a ∈ paths ∧
   ∃ infolist info, ZipFile a = Return infolist ∧
                    info ∈ infolist ∧ filename info = n ∧ file_size info = s).
Proof.
  rewrite !traverse_eq. cbn [fst]. intros [= Hp].
  destruct (load_archives_origin _ _ _ _ _ _ _ Hp) as [Hold|Hnew];
    [left; by rewrite Hold|by right].
Qed.

Lemma files_come_from_archives_witness :
  (traverse "demo/dir1/file5"
     (load_archives test_archives ["demo3.zip"; "demo4.zip"]
        (new_mapper default_pathmaker false false)).1.2).1.1
  = Return (Some (File "demo4.zip" "demo/dir1/file5" 26)) ∧
  ((traverse "demo/dir1/file5"
      (new_mapper default_pathmaker false false)).1.1
   = Return (Some (File "demo4.zip" "demo/dir1/file5" 26)) ∨
   ("demo4.zip" ∈ ["demo3.zip"; "demo4.zip"] ∧
    ∃ infolist info,
      test_archives "demo4.zip" = Return infolist ∧
      info ∈ infolist ∧ filename info = "demo/dir1/file5" ∧
      file_size info = 26)).
Proof.
  assert ((traverse "demo/dir1/file5"
             (load_archives test_archives ["demo3.zip"; "demo4.zip"]
                (new_mapper default_pathmaker false false)).1.2).1.1
          = Return (Some (File "demo4.zip" "demo/dir1/file5" 26))) as H
    by (vm_compute; reflexivity).
  split; [exact H|].
  exact (files_come_from_archives _ _ _ _ _ _ _ H).
Defined.

(** ** Loading again *)

Lemma settled_same_config self self2 archive_path info :
  include_arcname self2 = include_arcname self →
  pathmaker self2 = pathmaker self →
  entry_frags self2 archive_path info = entry_frags self archive_path info ∧
  entry_leaf self2 archive_path info = entry_leaf self archive_path info.
Proof.
  intros Hi Hp. unfold entry_frags, entry_leaf, ifilename_of.
  by rewrite Hi, Hp.
Qed.

Lemma settled_grows self self2 archive_path info :
  grows self self2 →
  settled self archive_path info → settled self2 archive_path info.
Proof.
  intros Hg Hs. pose proof Hg as (Hi & _ & Hp & Hkeep).
  unfold settled.
  destruct (settled_same_config self self2 archive_path info Hi Hp)
    as [-> ->].
  destruct Hs as [Hblocked|(Hd & Hleaf)].
  - left. by eapply file_above_grows.
  - right. split.
    + destruct (deref (Dir (mapping self)) _) as [[a f s|d]|] eqn:E;
        try discriminate.
      by destruct (Hkeep _ _ E) as (n' & -> & [d' ->]).
    + destruct Hleaf as [?|[n Hn]]; [by left|right].
      destruct (Hkeep _ _ Hn) as (n' & -> & _). eauto.
Qed.

(** Once the loop body has run for an entry, the entry is settled. *)
Lemma settled_after archive_path info self :
  settled (load_entry archive_path info self).1.2 archive_path info.
Proof.
  destruct (load_entry_total archive_path info self)
    as (self' & l & Hrun & Hi & _ & Hp & _).
  unfold settled. rewrite Hrun. cbn [fst snd].
  destruct (settled_same_config self self' archive_path info Hi Hp)
    as [-> ->].
  destruct (load_entry_cases archive_path info self)
    as [(msg & Hm & Hrej)|(self1 & Hm & _ & Hd & Hbody)];
    rewrite Hrun in *.
  { injection Hrej as -> _. left. by eapply mkdir_raise_file_above. }
  right.
  destruct (truthy (entry_leaf self archive_path info)) eqn:Ht; cbn in Hbody.
  2:{ injection Hbody as -> _. split; [done|by left]. }
  destruct (has_key _ _) eqn:Hin; cbn [andb] in Hbody.
  - assert (self' = self1 ∨
            self' = written self1 (entry_frags self archive_path info)
                      (default "" (entry_leaf self archive_path info))
                      archive_path info) as [->| ->]
      by (destruct (negb (overwrite self)); injection Hbody as -> _; eauto).
    + split; [done|right]. by apply has_key_deref_snoc.
    + destruct (deref (Dir (mapping self1)) _) as [[a f s|sub]|] eqn:E;
        try discriminate.
      unfold written. cbn. split; [|right].
      * by erewrite deref_store_target.
      * erewrite deref_store_here; eauto.
  - injection Hbody as -> _.
    destruct (deref (Dir (mapping self1)) _) as [[a f s|sub]|] eqn:E;
      try discriminate.
    unfold written. cbn. split; [|right].
    * by erewrite deref_store_target.
    * erewrite deref_store_here; eauto.
Qed.

(** Without [overwrite], the loop body leaves a settled entry's object
    alone. *)
Lemma settled_noop archive_path info self :
  overwrite self = false →
  settled self archive_path info →
  ∃ l, load_entry archive_path info self = (Return tt, self, l).
Proof.
  intros Hov [(k & a & f & s & Hk)|(Hd & Hleaf)].
  - destruct (load_entry_rejected _ _ _ _ _ _ _ Hk) as [msg ->]. eauto.
  - pose proof (mkdir_existing _ _ Hd) as Hmk.
    destruct (load_entry_cases archive_path info self)
      as [(msg & Hm & _)|(self1 & Hm & _ & _ & ->)];
      rewrite Hmk in Hm; [discriminate|].
    injection Hm as <-.
    destruct Hleaf as [->|[n Hn]]; [cbn; eauto|].
    destruct (negb (truthy _)); [eauto|].
    rewrite (deref_snoc_has_key _ _ _ _ Hn), Hov. cbn. eauto.
Qed.

Lemma _load_infolist_settles archive_path infolist : ∀ self,
  overwrite self = false →
  ∀ info, info ∈ infolist →
          settled (_load_infolist archive_path infolist self).1.2
            archive_path info.
Proof.
  induction infolist as [|info0 rest IH]; intros self Hov info Hin.
  { by apply elem_of_nil in Hin. }
  rewrite _load_infolist_cons.
  pose proof (settled_after archive_path info0 self) as Hfirst.
  destruct (load_entry_total archive_path info0 self)
    as (self1 & l1 & Hrun1 & _ & Ho1 & _ & _).
  rewrite Hrun1 in Hfirst |- *. cbn [fst snd] in Hfirst.
  assert (overwrite self1 = false) as Hov1 by congruence.
  specialize (IH self1 Hov1).
  destruct (_load_infolist_total archive_path rest self1)
    as (self2 & l2 & Hrun2 & _ & _ & _ & Hg).
  rewrite Hrun2 in IH |- *. cbn [fst snd] in *.
  apply elem_of_cons in Hin as [->|Hin]; [|by apply IH].
  eapply settled_grows; [by apply Hg|done].
Qed.

Lemma _load_infolist_noop archive_path infolist self :
  overwrite self = false →
  (∀ info, info ∈ infolist → settled self archive_path info) →
  ∃ l, _load_infolist archive_path infolist self = (Return tt, self, l).
Proof.
  intros Hov. induction infolist as [|info rest IH]; intros Hall.
  { by exists []. }
  rewrite _load_infolist_cons.
  destruct (settled_noop archive_path info self Hov) as [l1 ->].
  { apply Hall. by left. }
  destruct IH as [l2 ->]; [|eauto].
  intros info' Hin. apply Hall. by right.
Qed.

(** X10: without [overwrite], loading an archive a second time changes
    nothing: after a [load_archive] call, the same call returns the same
    answer and leaves the object exactly as the first call left it. *)
Theorem load_archive_twice (ZipFile : ZipFiles) (archive_path : string)
  (self self1 : DefaultMapper) (ok : bool) (l1 : list LogRecord) :
  overwrite self = false →
  load_archive ZipFile archive_path self = (Return ok, self1, l1) →
  ∃ l2, load_archive ZipFile archive_path self1 = (Return ok, self1, l2).
Proof.
  intros Hov Hrun.
  destruct (ZipFile archive_path) as [infolist|e] eqn:Hz.
  - destruct (load_archive_success _ _ _ self Hz) as (self' & l & Hil & Hla).
    rewrite Hrun in Hla. injection Hla as -> -> _.
    pose proof (_load_infolist_settles archive_path infolist self Hov)
      as Hall.
    rewrite Hil in Hall. cbn [fst snd] in Hall.
    destruct (_load_infolist_total archive_path infolist self)
      as (self2 & l' & Hil' & _ & Ho & _).
    rewrite Hil in Hil'. injection Hil' as <- _.
    destruct (_load_infolist_noop archive_path infolist self'
                ltac:(congruence) Hall) as [l2 Hnoop].
    destruct (load_archive_success _ _ _ self' Hz)
      as (self3 & l3 & Hil3 & ->).
    rewrite Hnoop in Hil3. injection Hil3 as <- _. eauto.
  - rewrite (load_archive_failure _ _ _ _ Hz) in Hrun.
    injection Hrun as <- <- _.
    rewrite (load_archive_failure _ _ _ _ Hz). eauto.
Qed.

Lemma load_archive_twice_witness :
  (overwrite (loaded "demo3.zip") = false ∧
   load_archive test_archives "demo4.zip" (loaded "demo3.zip")
   = (Return true,
      (load_archive test_archives "demo4.zip" (loaded "demo3.zip")).1.2,
      (load_archive test_archives "demo4.zip" (loaded "demo3.zip")).2)) ∧
  ∃ l2,
    load_archive test_archives "demo4.zip"
      (load_archive test_archives "demo4.zip" (loaded "demo3.zip")).1.2
    = (Return true,
       (load_archive test_archives "demo4.zip" (loaded "demo3.zip")).1.2,
       l2).
Proof.
  assert (load_archive test_archives "demo4.zip" (loaded "demo3.zip")
          = (Return true,
             (load_archive test_archives "demo4.zip" (loaded "demo3.zip")).1.2,
             (load_archive test_archives "demo4.zip" (loaded "demo3.zip")).2))
    as Hrun by (vm_compute; reflexivity).
  assert (overwrite (loaded "demo3.zip") = false) as Hov
    by (vm_compute; reflexivity).
  split; [exact (conj Hov Hrun)|].
  exact (load_archive_twice _ _ _ _ _ _ Hov Hrun).
Defined.

(** ** Listings and blocked paths across loads *)

(** X11: without [overwrite], a listing only grows: a name that [readdir]
    lists at a path is still listed there after any sequence of
    [load_archive] calls. *)
Theorem readdir_only_grows (ZipFile : ZipFiles) (paths : list string)
  (self : DefaultMapper) (path name : string) (names : list string) :
  overwrite self = false →
  readdir path self = (Return names, self, []) →
  name ∈ names →
  ∃ names',
    readdir path (load_archives ZipFile paths self).1.2
    = (Return names', (load_archives ZipFile paths self).1.2, []) ∧
    name ∈ names'.
Proof.
  intros Hov Hread Hin.
  destruct (load_archives_total ZipFile paths self)
    as (oks & self' & l & -> & _ & Hg).
  destruct (Hg Hov) as (_ & _ & _ & Hkeep). cbn [fst snd].
  rewrite readdir_eq in Hread |- *. injection Hread as <-.
  eexists. split; [done|].
  destruct (deref (Dir (mapping self)) (path_fragments_of path))
    as [[a f s|d]|] eqn:E; try by apply elem_of_nil in Hin.
  apply elem_of_keys in Hin as [n Hn].
  assert (deref (Dir (mapping self)) (path_fragments_of path ++ [name])
          = Some n) as Hchild by (by rewrite deref_app, E; simpl; rewrite Hn).
  destruct (Hkeep _ _ Hchild) as (n' & Hn' & _).
  apply deref_app_Some in Hn' as (y & -> & Hy).
  apply deref_cons_Some in Hy as (d' & child & -> & Hk & _).
  apply elem_of_keys. eauto.
Qed.

Lemma readdir_only_grows_witness :
  (overwrite (loaded "demo3.zip") = false ∧
   readdir "demo/dir1" (loaded "demo3.zip")
   = (Return ["file3"; "file1"; "file2"; "file4"], loaded "demo3.zip", []) ∧
   "file1" ∈ ["file3"; "file1"; "file2"; "file4"]) ∧
  ∃ names',
    readdir "demo/dir1"
      (load_archives test_archives ["demo4.zip"] (loaded "demo3.zip")).1.2
    = (Return names',
       (load_archives test_archives ["demo4.zip"] (loaded "demo3.zip")).1.2,
       []) ∧
    "file1" ∈ names'.
Proof.
  assert (overwrite (loaded "demo3.zip") = false) as Hov
    by (vm_compute; reflexivity).
  assert (readdir "demo/dir1" (loaded "demo3.zip")
          = (Return ["file3"; "file1"; "file2"; "file4"],
             loaded "demo3.zip", [])) as Hread
    by (vm_compute; reflexivity).
  assert ("file1" ∈ ["file3"; "file1"; "file2"; "file4"]) as Hin
    by (apply elem_of_cons; right; apply elem_of_cons; left; reflexivity).
  split; [exact (conj Hov (conj Hread Hin))|].
  exact (readdir_only_grows test_archives ["demo4.zip"] _ _ _ _
           Hov Hread Hin).
Defined.

Lemma deref_below_file n x y a f s :
  deref n x = Some (File a f s) → y ≠ [] → deref n (x ++ y) = None.
Proof.
  intros Hx Hy. rewrite deref_app, Hx. simpl. by destruct y.
Qed.

Lemma file_above_below m p q :
  file_above m p → q ≠ [] → deref (Dir m) (p ++ q) = None.
Proof.
  intros (k & a & f & s & Hk) Hq.
  rewrite <- (take_drop k p), <- (assoc_L (++)).
  eapply deref_below_file; [done|].
  destruct (drop k p); [done|discriminate].
Qed.

Lemma load_archives_file_above ZipFile paths : ∀ self p,
  file_above (mapping self) p →
  file_above (mapping (load_archives ZipFile paths self).1.2) p.
Proof.
  induction paths as [|q qs IH]; intros self p Hp; [done|].
  cbn [load_archives]. unfold bind, ret.
  pose proof (load_archive_file_above ZipFile q self p Hp) as Hp1.
  destruct (load_archive_total ZipFile q self) as (ok & self1 & l1 & Hq & _).
  rewrite Hq in Hp1 |- *. specialize (IH self1 p Hp1).
  destruct (load_archives_total ZipFile qs self1)
    as (oks & self2 & l2 & Hqs & _).
  by rewrite Hqs in IH |- *.
Qed.

(** X12: under every configuration, nothing is ever loaded below a file:
    once [traverse] finds a file tuple at a non-empty path [p], after any
    sequence of [load_archive] calls [traverse] of [p/q] is [None] for
    every [q], and [traverse] of [p] does not find a directory. *)
Theorem nothing_loaded_below_file (ZipFile : ZipFiles) (paths : list string)
  (self : DefaultMapper) (p q a f : string) (s : Z) :
  p ≠ "" →
  traverse p self = (Return (Some (File a f s)), self, []) →
  traverse (p +:+ "/" +:+ q) (load_archives ZipFile paths self).1.2
  = (Return None, (load_archives ZipFile paths self).1.2, []) ∧
  ∀ d, traverse p (load_archives ZipFile paths self).1.2
       ≠ (Return (Some (Dir d)), (load_archives ZipFile paths self).1.2, []).
Proof.
  intros Hp Hfile. rewrite traverse_eq in Hfile. injection Hfile as Hfile.
  assert (file_above (mapping (load_archives ZipFile paths self).1.2)
            (path_fragments_of p)) as Habove.
  { apply load_archives_file_above.
    exists (length (path_fragments_of p)), a, f, s. by rewrite firstn_all. }
  change (p +:+ "/" +:+ q) with (p +:+ String slash q).
  rewrite !traverse_eq, path_fragments_of_below by done. split.
  - rewrite file_above_below; [done..|].
    pose proof (split_nonempty q). by destruct (split q).
  - intros d [= Hd]. apply file_above_not_dict in Habove.
    by rewrite Hd in Habove.
Qed.

Lemma nothing_loaded_below_file_witness :
  ("demo" ≠ "" ∧
   traverse "demo" (loaded "conflict.zip")
   = (Return (Some (File "conflict.zip" "demo" 0)),
      loaded "conflict.zip", [])) ∧
  traverse ("demo" +:+ "/" +:+ "file1")
    (load_archives test_archives ["demo2.zip"] (loaded "conflict.zip")).1.2
  = (Return None,
     (load_archives test_archives ["demo2.zip"] (loaded "conflict.zip")).1.2,
     []).
Proof.
  assert ("demo" ≠ "") as Hne by discriminate.
  assert (traverse "demo" (loaded "conflict.zip")
          = (Return (Some (File "conflict.zip" "demo" 0)),
             loaded "conflict.zip", [])) as Hfile
    by (vm_compute; reflexivity).
  split; [exact (conj Hne Hfile)|].
  exact (proj1 (nothing_loaded_below_file test_archives ["demo2.zip"]
                  _ "demo" "file1" _ _ _ Hne Hfile)).
Defined.

(** ** [readfile] *)

Lemma readfile_eq ZipFile iteration path self :
  readfile ZipFile iteration path self =
  (match unpack_info (iteration path)
           (deref (Dir (mapping self)) (path_fragments_of path)) with
   | Raise e => Raise e
   | Return (archive_filename, name) =>
       match ZipFile archive_filename with
       | Raise e => Raise e
       | Return zf => zf name
       end
   end, self, []).
Proof.
  unfold readfile, bind. rewrite traverse_eq.
  destruct (unpack_info _ _) as [[a n]|e]; [|done].
  destruct (ZipFile a) as [zf|e]; [|done].
  by destruct (zf n).
Qed.

Lemma unpack_info_dir order d :
  length order ≠ 3%nat →
  unpack_info order (Some (Dir d))
  = Raise (ValueError (unpack_message (length order))).
Proof.
  intros Hlen. unfold unpack_info.
  by destruct order as [|k1 [|k2 [|k3 [|k4 ks]]]].
Qed.

(** X13: [readfile] never changes the object and logs nothing, whatever
    the path resolves to.  It raises [TypeError] when the path resolves to
    nothing and [ValueError] when it resolves to a directory whose number
    of entries is not three, in both cases without opening any archive.  A
    directory of exactly three entries is unpacked into its keys: the
    archive named by the first key iterated is opened and the member named
    by the second is read.  When the path resolves to a file tuple, the
    tuple's archive is opened and exactly the bytes of the tuple's member
    are returned; an exception of the archive reader is passed on. *)
Theorem readfile_outcome (ZipFile : ZipReader) (iteration : DictOrder)
  (path : string) (self : DefaultMapper) :
  (∃ r, readfile ZipFile iteration path self = (r, self, [])) ∧
  (traverse path self = (Return None, self, []) →
   readfile ZipFile iteration path self
   = (Raise (OtherException "TypeError"), self, [])) ∧
  (∀ d, traverse path self = (Return (Some (Dir d)), self, []) →
        iteration path ≡ₚ keys d →
        length (keys d) ≠ 3%nat →
        readfile ZipFile iteration path self
        = (Raise (ValueError (unpack_message (length (keys d)))), self, [])) ∧
  (∀ d, traverse path self = (Return (Some (Dir d)), self, []) →
        iteration path ≡ₚ keys d →
        length (keys d) = 3%nat →
        ∃ k1 k2 k3,
          iteration path = [k1; k2; k3] ∧
          is_Some (d !! k1) ∧ is_Some (d !! k2) ∧
          readfile ZipFile iteration path self
          = (match ZipFile k1 with
             | Raise e => Raise e
             | Return zf => zf k2
             end, self, [])) ∧
  (∀ a n s, traverse path self = (Return (Some (File a n s)), self, []) →
            readfile ZipFile iteration path self
            = (match ZipFile a with
               | Raise e => Raise e
               | Return zf => zf n
               end, self, [])).
Proof.
  rewrite readfile_eq, traverse_eq. split_and!.
  - eauto.
  - by intros [= ->].
  - intros d [= ->] Hperm Hlen.
    rewrite unpack_info_dir; rewrite (Permutation_length Hperm); done.
  - intros d [= ->] Hperm Hlen.
    rewrite <- (Permutation_length Hperm) in Hlen.
    destruct (iteration path) as [|k1 [|k2 [|k3 [|k4 ks]]]] eqn:E;
      try discriminate.
    exists k1, k2, k3. split_and!; [done| | |done].
    + apply elem_of_keys. rewrite <- Hperm. by left.
    + apply elem_of_keys. rewrite <- Hperm. right. by left.
  - by intros a n s [= ->].
Qed.

Lemma readfile_outcome_witness :
  (traverse "nowhere" (loaded "demo1.zip")
   = (Return None, loaded "demo1.zip", []) ∧
   traverse "file1" (loaded "demo1.zip")
   = (Return (Some (File "demo1.zip" "file1" 33)), loaded "demo1.zip", []) ∧
   traverse "" (with_mapping blocked_mapper dummy_mapping)
   = (Return (Some (Dir dummy_mapping)),
      with_mapping blocked_mapper dummy_mapping, []) ∧
   dummy_order "" ≡ₚ keys dummy_mapping ∧
   length (keys dummy_mapping) = 3%nat) ∧
  readfile test_reader dummy_order "nowhere" (loaded "demo1.zip")
  = (Raise (OtherException "TypeError"), loaded "demo1.zip", []) ∧
  readfile test_reader dummy_order "file1" (loaded "demo1.zip")
  = (match test_reader "demo1.zip" with
     | Raise e => Raise e
     | Return zf => zf "file1"
     end, loaded "demo1.zip", []) ∧
  ∃ k1 k2 k3,
    dummy_order "" = [k1; k2; k3] ∧
    is_Some (dummy_mapping !! k1) ∧ is_Some (dummy_mapping !! k2) ∧
    readfile test_reader dummy_order "" (with_mapping blocked_mapper dummy_mapping)
    = (match test_reader k1 with
       | Raise e => Raise e
       | Return zf => zf k2
       end, with_mapping blocked_mapper dummy_mapping, []).
Proof.
  assert (traverse "nowhere" (loaded "demo1.zip")
          = (Return None, loaded "demo1.zip", [])) as Hnone
    by (vm_compute; reflexivity).
  assert (traverse "file1" (loaded "demo1.zip")
          = (Return (Some (File "demo1.zip" "file1" 33)),
             loaded "demo1.zip", [])) as Hfile
    by (vm_compute; reflexivity).
  assert (traverse "" (with_mapping blocked_mapper dummy_mapping)
          = (Return (Some (Dir dummy_mapping)),
             with_mapping blocked_mapper dummy_mapping, [])) as Hdir
    by (vm_compute; reflexivity).
  assert (dummy_order "" ≡ₚ keys dummy_mapping) as Hperm
    by (refine (bool_decide_unpack _ _); vm_compute; exact I).
  assert (length (keys dummy_mapping) = 3%nat) as Hlen
    by (vm_compute; reflexivity).
  split; [exact (conj Hnone (conj Hfile (conj Hdir (conj Hperm Hlen))))|].
  split_and!.
  - exact (proj1 (proj2 (readfile_outcome test_reader dummy_order
                           "nowhere" _)) Hnone).
  - exact (proj2 (proj2 (proj2 (proj2
             (readfile_outcome test_reader dummy_order "file1" _))))
             _ _ _ Hfile).
  - exact (proj1 (proj2 (proj2 (proj2
             (readfile_outcome test_reader dummy_order "" _))))
             _ Hdir Hperm Hlen).
Defined.

Lemma test_reader_agrees : reader_agrees test_archives test_reader.
Proof.
  intros a infolist Hz. unfold test_reader. rewrite Hz.
  eexists. split; [done|].
  intros info Hin. eexists.
  assert (existsb (λ info0, String.eqb (filename info0) (filename info))
            infolist = true) as ->; [|done].
  apply existsb_exists. exists info. split.
  - by apply list_elem_of_In.
  - apply String.eqb_refl.
Qed.

(** X14: every file that loading put into the tree can be read.  Starting
    from the empty tree of a new mapper, under every configuration, if the
    archive reader still opens each archive that was listed and each member
    it listed, then [readfile] returns content, without raising, at every
    path where [traverse] finds a file tuple after the loads. *)
Theorem loaded_files_can_be_read (lister : ZipFiles) (reader : ZipReader)
  (iteration : DictOrder) (paths : list string) (pm : PathMaker)
  (ov ia : bool) (path a n : string) (s : Z) :
  reader_agrees lister reader →
  traverse path (load_archives lister paths (new_mapper pm ov ia)).1.2
  = (Return (Some (File a n s)),
     (load_archives lister paths (new_mapper pm ov ia)).1.2, []) →
  ∃ zf content,
    reader a = Return zf ∧ zf n = Return content ∧
    readfile reader iteration path
      (load_archives lister paths (new_mapper pm ov ia)).1.2
    = (Return content,
       (load_archives lister paths (new_mapper pm ov ia)).1.2, []).
Proof.
  intros Hagree Hfile. rewrite readfile_eq.
  rewrite traverse_eq in Hfile. injection Hfile as Hfile.
  rewrite Hfile. cbn [unpack_info].
  destruct (load_archives_origin _ _ _ _ _ _ _ Hfile)
    as [Hold|(_ & infolist & info & Hz & Hin & <- & _)].
  { by apply deref_empty_file in Hold. }
  destruct (Hagree a infolist Hz) as (zf & Hopen & Hmembers).
  destruct (Hmembers info Hin) as [content Hcontent].
  exists zf, content. by rewrite Hopen, Hcontent.
Qed.

Lemma loaded_files_can_be_read_witness :
  (reader_agrees test_archives test_reader ∧
   traverse "demo2.zip/demo/file1"
     (load_archives test_archives ["demo2.zip"]
        (new_mapper default_pathmaker false true)).1.2
   = (Return (Some (File "demo2.zip" "demo/file1" 33)),
      (load_archives test_archives ["demo2.zip"]
         (new_mapper default_pathmaker false true)).1.2, [])) ∧
  ∃ zf content,
    test_reader "demo2.zip" = Return zf ∧
    zf "demo/file1" = Return content ∧
    readfile test_reader dummy_order "demo2.zip/demo/file1"
      (load_archives test_archives ["demo2.zip"]
         (new_mapper default_pathmaker false true)).1.2
    = (Return content,
       (load_archives test_archives ["demo2.zip"]
          (new_mapper default_pathmaker false true)).1.2, []).
Proof.
  assert (traverse "demo2.zip/demo/file1"
            (load_archives test_archives ["demo2.zip"]
               (new_mapper default_pathmaker false true)).1.2
          = (Return (Some (File "demo2.zip" "demo/file1" 33)),
             (load_archives test_archives ["demo2.zip"]
                (new_mapper default_pathmaker false true)).1.2, [])) as Hfile
    by (vm_compute; reflexivity).
  split; [exact (conj test_reader_agrees Hfile)|].
  exact (loaded_files_can_be_read test_archives test_reader dummy_order
           ["demo2.zip"] default_pathmaker false true _ _ _ _
           test_reader_agrees Hfile).
Defined.

(** ** [__init__] *)

(** X15: the constructor raises exactly when the lookup of the pathmaker
    name raises, with that exception, before anything is loaded or logged.
    Otherwise it returns an object that holds the pathmaker found and the
    two options given: its tree is empty when no path or the empty path is
    given or when the archive cannot be opened (the failure is only logged
    by [load_archive]), and with an archive that opens the object is the
    one [_load_infolist] makes of the empty mapper. *)
Theorem init_outcome (ZipFile : ZipFiles) (pathmaker_module : PathMakerModule)
  (path : option string) (pathmaker_name : string) (ov ia : bool) :
  match pathmaker_module pathmaker_name with
  | Raise e =>
      __init__ ZipFile pathmaker_module path pathmaker_name ov ia
      = (Raise e, [])
  | Return pm =>
      ∃ self l,
        __init__ ZipFile pathmaker_module path pathmaker_name ov ia
        = (Return self, l) ∧
        include_arcname self = ia ∧ overwrite self = ov ∧
        pathmaker self = pm ∧
        match path with
        | None => self = new_mapper pm ov ia ∧ l = []
        | Some p =>
            if String.eqb p "" then self = new_mapper pm ov ia ∧ l = []
            else
              (∃ ok, load_archive ZipFile p (new_mapper pm ov ia)
                     = (Return ok, self, l)) ∧
              match ZipFile p with
              | Raise _ => self = new_mapper pm ov ia
              | Return infolist =>
                  self = (_load_infolist p infolist
                            (new_mapper pm ov ia)).1.2
              end
        end
  end.
Proof.
  unfold __init__. destruct (pathmaker_module pathmaker_name) as [pm|e];
    [|done].
  destruct path as [p|]; [|by eexists _, _].
  destruct (String.eqb p ""); cbn [negb]; [by eexists _, _|].
  destruct (load_archive_total ZipFile p (new_mapper pm ov ia))
    as (ok & self' & l & Hrun & Hi & Ho & Hp & _).
  rewrite Hrun. exists self', l. split_and!; [done..| |].
  - eauto.
  - destruct (ZipFile p) as [infolist|e] eqn:Hz.
    + destruct (load_archive_success _ _ _ (new_mapper pm ov ia) Hz)
        as (self'' & l' & Hil & Hla).
      rewrite Hrun in Hla. injection Hla as _ -> _. by rewrite Hil.
    + rewrite (load_archive_failure _ _ _ _ Hz) in Hrun.
      by injection Hrun as _ <- _.
Qed.

(** The constructor on the test archives: a name the pathmaker module does
    not have raises, and [DefaultMapper('demo1.zip')] is the loaded
    object. *)
Example init_examples :
  __init__ test_archives test_pathmakers (Some "demo1.zip") "nosuch"
    false false
  = (Raise (OtherException "AttributeError"), []) ∧
  __init__ test_archives test_pathmakers (Some "demo1.zip") "default"
    false false
  = (Return (loaded "demo1.zip"), [(INFO, "loaded `demo1.zip`")]).
Proof. split; vm_compute; reflexivity. Qed.

(** ** Directory entries *)

(** X16: an entry whose file name is falsy (a directory entry such as
    [demo/dir2/]) writes no file: the loop body returns, every path holds a
    file tuple afterwards exactly when it did before, and either a file
    blocks the entry's fragments and the object is unchanged, or the
    directory at the fragments exists afterwards. *)
Theorem directory_entry_makes_directory (self : DefaultMapper)
  (archive_path : string) (info : ZipInfo) :
  truthy (entry_leaf self archive_path info) = false →
  ∃ self' l,
    load_entry archive_path info self = (Return tt, self', l) ∧
    (∀ p a f s, deref (Dir (mapping self')) p = Some (File a f s) ↔
                deref (Dir (mapping self)) p = Some (File a f s)) ∧
    ((file_above (mapping self) (entry_frags self archive_path info) ∧
      self' = self)
     ∨ is_dict (deref (Dir (mapping self'))
                  (entry_frags self archive_path info)) = true).
Proof.
  intros Hfalsy.
  destruct (load_entry_cases archive_path info self)
    as [(msg & Hm & ->)|(self1 & Hm & Hg & Hd & ->)].
  - do 2 eexists. split_and!; [done|done|left].
    split; [by eapply mkdir_raise_file_above|done].
  - rewrite Hfalsy. cbn [negb].
    destruct (mkdir_return_outcome _ _ _ Hm) as (_ & Hfiles & _).
    destruct Hg as (_ & _ & _ & Hkeep).
    do 2 eexists. split_and!; [done| |by right].
    intros p a f s. split; [apply Hfiles|].
    intros Hp. destruct (Hkeep _ _ Hp) as (n' & Hn' & Hpres).
    simpl in Hpres. by subst n'.
Qed.

Lemma directory_entry_makes_directory_witness :
  truthy (entry_leaf (loaded "demo1.zip") "demo3.zip"
            (zipinfo "demo/dir2/" 0)) = false ∧
  ∃ self' l,
    load_entry "demo3.zip" (zipinfo "demo/dir2/" 0) (loaded "demo1.zip")
    = (Return tt, self', l) ∧
    (∀ p a f s, deref (Dir (mapping self')) p = Some (File a f s) ↔
                deref (Dir (mapping (loaded "demo1.zip"))) p
                = Some (File a f s)) ∧
    ((file_above (mapping (loaded "demo1.zip"))
        (entry_frags (loaded "demo1.zip") "demo3.zip"
           (zipinfo "demo/dir2/" 0)) ∧
      self' = loaded "demo1.zip")
     ∨ is_dict (deref (Dir (mapping self'))
                  (entry_frags (loaded "demo1.zip") "demo3.zip"
                     (zipinfo "demo/dir2/" 0))) = true).
Proof.
  assert (truthy (entry_leaf (loaded "demo1.zip") "demo3.zip"
                    (zipinfo "demo/dir2/" 0)) = false) as Hfalsy
    by (vm_compute; reflexivity).
  split; [exact Hfalsy|].
  exact (directory_entry_makes_directory _ _ _ Hfalsy).
Defined.
